(** * rakosh: the nugget catalog

    A shallow embedding of the class [NuggetCatalog]: the heading regular
    expression, [rewriteHeadings], the chunk population, the tree build on
    top of the [tree-model] package, the ordered and the paged extraction.
    The database is outside: what its queries return is an argument of the
    operations. The lookups of the catalog are plain objects; they are
    finite maps here, which is exact for the keys that [Obj.ordinary]
    describes, and the theorems that need it say so. *)

From Stdlib Require Import ZArith Ascii String List Lia.
From stdpp Require Import base option list gmap strings fin_maps sorting.

Local Open Scope string_scope.
Local Open Scope Z_scope.
Local Open Scope list_scope.

(** ** JavaScript values the catalog works with *)

(** Errors the code can throw. [IllegalState] is the plain
    [Error('must call init() first')] of [initCheck]; [AssertionError] is
    what [assert.ok] throws; [TypeError] is a method call on [undefined];
    [RangeError] is [String.prototype.repeat] with a negative count;
    [ReferenceError] is listed because the documentation speaks of it. *)
Inductive error : Type :=
  | IllegalState
  | AssertionError
  | ReferenceError
  | TypeError
  | RangeError.

Inductive result (A : Type) : Type :=
  | Ok (a : A)
  | Throw (e : error).
Arguments Ok {A} a.
Arguments Throw {A} e.

Definition rbind {A B} (r : result A) (f : A → result B) : result B :=
  match r with
  | Ok a => f a
  | Throw e => Throw e
  end.

Notation "x ←ᵣ r ; k" := (rbind r (fun x => k))
  (at level 100, r at next level, right associativity).

Fixpoint rmapM {A B} (f : A → result B) (l : list A) : result (list B) :=
  match l with
  | [] => Ok []
  | a :: l' => b ←ᵣ f a; bs ←ᵣ rmapM f l'; Ok (b :: bs)
  end.

Module Str.

(** Strings are sequences of code units below 256. *)

Definition nl : string := String (ascii_of_nat 10) EmptyString.

Definition code (c : ascii) : nat := nat_of_ascii c.

(** LineTerminator of the regular expression grammar: LF and CR. *)
Definition isLineTerminator (c : ascii) : bool :=
  (code c =? 10)%nat || (code c =? 13)%nat.

(** The class [\s]: TAB, LF, VT, FF, CR, SP and NBSP. *)
Definition isSpace (c : ascii) : bool :=
  (code c =? 9)%nat || (code c =? 10)%nat || (code c =? 11)%nat ||
  (code c =? 12)%nat || (code c =? 13)%nat || (code c =? 32)%nat ||
  (code c =? 160)%nat.

Definition isHash (c : ascii) : bool := (code c =? 35)%nat.

(** ['#'.repeat(n)] for a count that is not negative. *)
Fixpoint hashes (n : nat) : string :=
  match n with
  | O => EmptyString
  | S n' => String "#"%char (hashes n')
  end.

(** [String.prototype.repeat] throws a RangeError on a negative count.
    The engine also throws one when the result would be longer than the
    strings it can make; strings have no such bound here, and the counts
    that the catalog passes stay far below it (see [Shape.maxDepth]). *)
Definition repeatHash (l : Z) : result string :=
  if l <? 0 then Throw RangeError else Ok (hashes (Z.to_nat l)).

(** JavaScript truthiness of a string that may be [undefined]. *)
Definition truthy (o : option string) : bool :=
  match o with
  | Some (String _ _) => true
  | _ => false
  end.

(** [Array.prototype.join] prints [undefined] as the empty string. *)
Definition orEmpty (o : option string) : string := default EmptyString o.

End Str.

(** ** Plain objects *)

Module Obj.

(** [allNuggets], [seamNuggetChunks] and [writtenNugs] are plain objects
    ([{}]), used as lookups from keys to values. A finite map stands for
    the properties that were stored in such an object. A plain object also
    inherits the members of [Object.prototype]: under one of their names,
    [o[k]] and [k in o] find the inherited member when nothing was stored
    under [k], and the assignment [o['__proto__'] = v] stores nothing.
    For every other key, reading, [in] and assignment are the lookup, the
    membership and the insertion of the map. *)
Definition inherited : list string :=
  ["constructor"; "__defineGetter__"; "__defineSetter__"; "hasOwnProperty";
   "__lookupGetter__"; "__lookupSetter__"; "isPrototypeOf";
   "propertyIsEnumerable"; "toString"; "valueOf"; "__proto__";
   "toLocaleString"].

Definition isInherited (k : string) : bool := bool_decide (k ∈ inherited).

(** A key under which a plain object holds only what was stored. *)
Definition ordinary (k : string) : Prop := isInherited k = false.

End Obj.

(** ** HEADING_RE = /^(#+)\s+(.+)$/gm *)

Module HeadingRe.
Import Str.

(** One match: the hashes [m[1]], the blanks that [\s+] took, and the
    heading text [m[2]]. *)
Record rmatch : Type := mkMatch { p1 : string; blanks : string; p2 : string }.

Definition matched (m : rmatch) : string := p1 m +:+ blanks m +:+ p2 m.

(** [(.+)$] at [s]: the longest run of characters that are no line
    terminators; it has to be non-empty, and it stops at the end of the
    input or in front of a line terminator, where [$] holds. *)
Fixpoint dots (s : string) : string :=
  match s with
  | String c s' => if isLineTerminator c then EmptyString else String c (dots s')
  | EmptyString => EmptyString
  end.

Definition text (s : string) : option rmatch :=
  match dots s with
  | EmptyString => None
  | t => Some (mkMatch EmptyString EmptyString t)
  end.

(** [\s*(.+)$] at [s], greedy with backtracking: take one more blank when
    the rest of the pattern still matches after it, otherwise let the text
    start here. *)
Fixpoint blanksText (s : string) : option rmatch :=
  match s with
  | String c s' =>
      if isSpace c then
        match blanksText s' with
        | Some m => Some (mkMatch (p1 m) (String c (blanks m)) (p2 m))
        | None => text s
        end
      else text s
  | EmptyString => None
  end.

(** [\s+(.+)$] at [s]. *)
Definition blanks1Text (s : string) : option rmatch :=
  match s with
  | String c s' =>
      if isSpace c then
        match blanksText s' with
        | Some m => Some (mkMatch (p1 m) (String c (blanks m)) (p2 m))
        | None => None
        end
      else None
  | EmptyString => None
  end.

(** [#*\s+(.+)$] at [s], greedy with backtracking. *)
Fixpoint hashesBlanksText (s : string) : option rmatch :=
  match s with
  | String c s' =>
      if isHash c then
        match hashesBlanksText s' with
        | Some m => Some (mkMatch (String c (p1 m)) (blanks m) (p2 m))
        | None => blanks1Text s
        end
      else blanks1Text s
  | EmptyString => None
  end.

(** [(#+)\s+(.+)$] at [s]; the caller checks [^]. *)
Definition matchHere (s : string) : option rmatch :=
  match s with
  | String c s' =>
      if isHash c then
        match hashesBlanksText s' with
        | Some m => Some (mkMatch (String c (p1 m)) (blanks m) (p2 m))
        | None => None
        end
      else None
  | EmptyString => None
  end.

(** The global scan cuts the input into the characters outside of matches
    and the matches, from left to right. *)
Inductive token : Type :=
  | Plain (c : ascii)
  | Heading (m : rmatch).

(** [bol]: the position is the start of the input or follows a line
    terminator, so [^] holds under the [m] flag. [skip]: how many
    characters of the last match are still to be passed over. *)
Fixpoint scan (bol : bool) (skip : nat) (s : string) : list token :=
  match s with
  | EmptyString => []
  | String c s' =>
      match skip with
      | S k => scan (isLineTerminator c) k s'
      | O =>
          match (if bol then matchHere s else None) with
          | Some m =>
              Heading m :: scan (isLineTerminator c) (String.length (matched m) - 1)%nat s'
          | None => Plain c :: scan (isLineTerminator c) 0 s'
          end
      end
  end.

Definition tokens (s : string) : list token := scan true 0 s.

(** [Array.from(s.matchAll(HEADING_RE))] *)
Definition matchAll (s : string) : list rmatch :=
  omap (fun t => match t with Heading m => Some m | Plain _ => None end) (tokens s).

(** [s.match(HEADING_RE)] is [null] exactly when nothing matches. *)
Definition hasMatch (s : string) : bool :=
  match matchAll s with
  | [] => false
  | _ => true
  end.

(** [s.replace(HEADING_RE, f)] where [f] also sees how many matches came
    before (the closure's [idx++]). *)
Fixpoint replaceTokens (f : nat → rmatch → string) (idx : nat) (ts : list token) : string :=
  match ts with
  | [] => EmptyString
  | Plain c :: ts' => String c (replaceTokens f idx ts')
  | Heading m :: ts' => f idx m +:+ replaceTokens f (S idx) ts'
  end.

Definition replace (f : nat → rmatch → string) (s : string) : string :=
  replaceTokens f 0 (tokens s).

(** [s.replace(HEADING_RE, '')] *)
Definition strip (s : string) : string := replace (fun _ _ => EmptyString) s.

End HeadingRe.

(** ** rewriteHeadings *)

Module Headings.
Import Str HeadingRe.

Definition MAX : Z := 6.

(** The fourth [map] of [newHeads]: its callback reads and writes the
    captured variable [last]. *)
Fixpoint stepLimit (last : Z) (ls : list Z) : list Z :=
  match ls with
  | [] => []
  | l :: ls' =>
      let ret := if l >? last + 1 then last + 1 else l in
      (* last = l *)
      ret :: stepLimit l ls'
  end.

(** The heading levels before they are turned into strings of hashes;
    [depth] is the clamped one, [depths] the hash counts of the matches. *)
Definition newLevels (depth : Z) (depths : list Z) : list Z :=
  let first := hd 0 depths in
  let l1 := map (fun l => l - first + depth) depths in
  let l2 := map (fun l => if l >? MAX then MAX else l) l1 in
  let l3 := map (fun l => if l <? depth then depth else l) l2 in
  stepLimit depth l3.

Definition clampDepth (depth : Z) : Z := if depth >? MAX then MAX else depth.

Definition headingDepths (markdown : string) : list Z :=
  map (fun m => Z.of_nat (String.length (p1 m))) (matchAll markdown).

(** The levels of the headings of the output of [rewriteHeadings], in
    order; without a heading in the input there is nothing to rewrite. *)
Definition finalLevels (markdown : string) (depth : Z) : list Z :=
  newLevels (clampDepth depth) (headingDepths markdown).

Definition rewriteHeadings (markdown : string) (depth : Z) : result string :=
  let depth := clampDepth depth in
  let matches := matchAll markdown in
  match matches with
  | _ :: _ =>
      newHeads ←ᵣ rmapM repeatHash (newLevels depth (headingDepths markdown));
      Ok (replace
            (fun idx m => orEmpty (newHeads !! idx) +:+ " " +:+ p2 m)
            markdown)
  | [] => Ok markdown
  end.

End Headings.

(** ** Nuggets and the catalog's state *)

(** Modelled from the spec: the [Nugget] class (lib/nugget.js is not among
    the sources). A nugget is the vertex document it was built from; these
    are the attributes the catalog reads. A missing attribute is [None].
    [nuggets] is the list of grouped keys of a seam. The documents have no
    attribute called [depth], [chunks] or [children]. *)
Record Nugget : Type := mkNugget {
  _key : string;
  _id : string;
  type : option string;
  label : string;
  order : option Z;
  body : option string;
  nuggets : option (list string)
}.

(** The catalog object, without the database handle and the query filters:
    what the queries return is an input of the operations below. A
    [minLength] that was not passed to the constructor is [None]. *)
Record Catalog : Type := mkCatalog {
  minLength : option Z;
  allNuggets : gmap string Nugget;
  seamNuggetChunks : gmap string string;
  initialised : bool
}.

Module Catalog.
Import Str HeadingRe Headings.

(** [constructor (db, includes, excludes, minLength)] *)
Definition new (minLength : option Z) : Catalog :=
  mkCatalog minLength ∅ ∅ false.

(** [init ()]: [docs] is what the cursor of the traversal query yields.
    Each document is stored under its [_key]; a document with the key
    [__proto__] would replace the prototype of the lookup instead, and the
    cursors spoken of here yield none. *)
Definition init (docs : list Nugget) (st : Catalog) : Catalog :=
  mkCatalog (minLength st)
    (foldl (fun all c => <[_key c := c]> all) (allNuggets st) docs)
    (seamNuggetChunks st)
    true.

Definition initCheck (st : Catalog) : result unit :=
  if initialised st then Ok tt else Throw IllegalState.

(** [Object.values(this.allNuggets)]. Every nugget writes under its own
    key only, so the order of the enumeration does not show in the
    results. *)
Definition values (st : Catalog) : list Nugget := (map_to_list (allNuggets st)).*2.

(** [getMd (acc, key)], for a [key] that is stored or [Obj.ordinary]. *)
Definition getMd (st : Catalog) (acc : string) (key : string) : string :=
  match allNuggets st !! key with
  | None => acc
  | Some n => acc +:+ nl +:+ orEmpty (body n)
  end.

Definition isSeam (n : Nugget) : bool :=
  match nuggets n with
  | Some _ => true
  | None => false
  end.

Definition seamsOf (st : Catalog) : list Nugget := filter (fun s => isSeam s = true) (values st).

(** The chunk of one seam: [seam.nuggets.reduce(..., seamBody)]. *)
Definition seamChunk (st : Catalog) (seam : Nugget) : string :=
  let seamBody := getMd st EmptyString (_key seam) in
  foldl (fun acc key => getMd st acc key) seamBody (default [] (nuggets seam)).

(** [nugList] after the first loop. *)
Definition nugList (st : Catalog) : list string :=
  seamsOf st ≫= (fun seam => _key seam :: default [] (nuggets seam)).

(** [writtenNugs]: the keys of [nugList] as a lookup. The test
    [n._key in writtenNugs] of the second loop is membership in this set
    for a key that is [Obj.ordinary]. *)
Definition writtenNugs (st : Catalog) : gset string := list_to_set (nugList st).

(** [populateChunks ()] *)
Definition populateChunks (st : Catalog) : result Catalog :=
  _ ←ᵣ initCheck st;
  let chunks1 :=
    foldl (fun chunks seam => <[_key seam := seamChunk st seam]> chunks)
          (seamNuggetChunks st) (seamsOf st) in
  let written := writtenNugs st in
  let rest := filter (fun n => _key n ∉ written) (values st) in
  let chunks2 :=
    foldl (fun chunks nugget =>
             if truthy (body nugget)
             then <[_key nugget := orEmpty (body nugget)]> chunks
             else chunks)
          chunks1 rest in
  Ok (mkCatalog (minLength st) (allNuggets st) chunks2 (initialised st)).

Definition isPassageId (n : Nugget) : bool := String.prefix "passage" (_id n).

Definition heading (depth : Z) (n : Nugget) : result string :=
  h ←ᵣ repeatHash depth; Ok (h +:+ " " +:+ label n).

(** [#mdForExtract (key, depth)] for a [key] that is [Obj.ordinary];
    [Ok None] is [undefined]. *)
Definition mdForExtract (st : Catalog) (key : string) (depth : Z) : result (option string) :=
  match allNuggets st !! key with
  | None => Ok None
  | Some nug =>
      retMd ←ᵣ
        match seamNuggetChunks st !! key with
        | Some chunk => Ok (Some chunk)
        | None =>
            if isPassageId nug then
              if truthy (body nug) then Ok (body nug)
              else (h ←ᵣ heading depth nug; Ok (Some (h +:+ nl)))
            else Ok None
        end;
      if truthy retMd then
        let md := orEmpty retMd in
        if negb (hasMatch md)
        then (h ←ᵣ heading depth nug; Ok (Some (h +:+ nl +:+ nl +:+ md)))
        else Ok (Some md)
      else Ok None
  end.

(** [#allowExtract (markdown)] *)
Definition allowExtract (st : Catalog) (markdown : string) : bool :=
  match minLength st with
  | Some min => Z.of_nat (String.length (strip markdown)) >? min
  | None => false
  end.

(** [getChunk (key, depth)] *)
Definition getChunk (st : Catalog) (key : string) (depth : Z) : result (option string) :=
  md ←ᵣ mdForExtract st key depth;
  if truthy md then (r ←ᵣ rewriteHeadings (orEmpty md) depth; Ok (Some r))
  else Ok None.

End Catalog.

(** ** The tree-model package, as far as the catalog uses it *)

Module TreeModel.

Section Tree.
Context {M : Type}.

(** A [Node] owns its model and its children; the parent link of the
    package is the position of the node in the tree. *)
#[warnings="-register-all"]
Inductive Node : Type := mkNode { model : M; children : list Node }.

(** [tree.parse(model)] of a model without a [children] property. *)
Definition parse (m : M) : Node := mkNode m [].

Definition hasChildren (n : Node) : bool :=
  match children n with
  | [] => false
  | _ => true
  end.

(** The order in which [walk] calls back: depth first, a node before its
    children. *)
Fixpoint nodes (t : Node) : list Node :=
  t :: (children t ≫= nodes).

(** [node.all(fn)] *)
Definition all (fn : Node → bool) (t : Node) : list Node :=
  filter (fun n => fn n = true) (nodes t).

(** A reference to a node of a tree: the child indices that lead to it
    from the root. *)
Definition ref : Type := list nat.

(** The node a reference stands for. The references that the catalog
    holds are valid (see [valid]); at an index that does not exist the
    node reached so far stands in. *)
Fixpoint focus (t : Node) (r : ref) : Node :=
  match r with
  | [] => t
  | i :: r' =>
      match children t !! i with
      | Some c => focus c r'
      | None => t
      end
  end.

(** A change made through a reference; nothing changes at an index that
    does not exist. *)
Fixpoint update (f : Node → Node) (r : ref) (t : Node) : Node :=
  match r with
  | [] => f t
  | i :: r' => mkNode (model t) (alter (update f r') i (children t))
  end.

(** The loop of the walk over the children of a node. *)
Definition firstIn (first : Node → option ref) : nat → list Node → option ref :=
  fix go (i : nat) (cs : list Node) : option ref :=
    match cs with
    | [] => None
    | c :: cs' =>
        match first c with
        | Some r => Some (i :: r)
        | None => go (S i) cs'
        end
    end.

(** [node.first(fn)]: the first node of the walk that [fn] accepts, as a
    reference relative to [node]. *)
Fixpoint first (fn : Node → bool) (t : Node) : option ref :=
  if fn t then Some []
  else firstIn (first fn) 0%nat (children t).

(** [findInsertIndex (comparatorFn, arr, el)] *)
Fixpoint findInsertIndex (comparatorFn : M → M → Z) (arr : list Node) (el : M) : nat :=
  match arr with
  | [] => 0
  | a :: arr' =>
      if comparatorFn (model a) el >? 0 then 0
      else S (findInsertIndex comparatorFn arr' el)
  end.

(** [arr.splice(index, 0, x)] *)
Definition splice {A} (index : nat) (x : A) (arr : list A) : list A :=
  take index arr ++ x :: drop index arr.

(** [self.addChild(child)] with a [modelComparatorFn]. *)
Definition addChild (comparatorFn : M → M → Z) (child : Node) (self : Node) : Node :=
  let index := findInsertIndex comparatorFn (children self) (model child) in
  mkNode (model self) (splice index child (children self)).

(** A reference is valid when every index on its way exists. *)
Fixpoint valid (t : Node) (r : ref) : Prop :=
  match r with
  | [] => True
  | i :: r' =>
      match children t !! i with
      | Some c => valid c r'
      | None => False
      end
  end.

(** What a walk collects when it reads, at every node, the model and the
    models of the children. *)
Definition gather {B} (g : M → list M → list B) (t : Node) : list B :=
  nodes t ≫= (fun n => g (model n) (model <$> children n)).

End Tree.
Arguments Node M : clear implicits.

End TreeModel.

(** ** The catalog's trees *)

(** The model of a tree node: [{ depth, chunks: [], ...nugget }]. The
    spread of [undefined] adds nothing, which is [nug = None]. *)
Record Model : Type := mkModel {
  depth : Z;
  chunks : list string;
  nug : option Nugget
}.

Definition key (m : Model) : option string := _key <$> nug m.

(** Modelled from the spec: [Nugget.compare] (lib/nugget.js is not among
    the sources). A nugget with an [order] sorts before one without; two
    orders compare as numbers; two nuggets without compare by label; the
    key breaks ties. *)
Definition ofComparison (c : comparison) : Z :=
  match c with
  | Lt => -1
  | Eq => 0
  | Gt => 1
  end.

Definition Nugget_compare (a b : Nugget) : Z :=
  let byKey := ofComparison (String.compare (_key a) (_key b)) in
  match order a, order b with
  | Some x, Some y => if x =? y then byKey else ofComparison (x ?= y)
  | Some _, None => -1
  | None, Some _ => 1
  | None, None =>
      match String.compare (label a) (label b) with
      | Eq => byKey
      | c => ofComparison c
      end
  end.

Definition Model_compare (a b : Model) : Z :=
  match nug a, nug b with
  | Some x, Some y => Nugget_compare x y
  | _, _ => 0
  end.

Module Tree.
Import Str HeadingRe Headings TreeModel Catalog.

Abbreviation Node := (TreeModel.Node Model).

Section WithComparator.

(** [Nugget.compare], the [modelComparatorFn] of the tree. *)
Variable compare : Model → Model → Z.

Definition hasKey (k : string) (n : Node) : bool :=
  bool_decide (key (model n) = Some k).

(** One round of [for (const key of c.keys.split('|'))]: [root] is the
    tree so far, [current] the node the walk stands on, [depth] the
    counter. The round returns the tree and where the walk stands next.
    The lookup [this.allNuggets[key]] finds what is stored under [key];
    that is all it finds when [key] is stored or [Obj.ordinary] (see
    [Shape.ownLookups]). *)
Definition visitKey (st : Catalog) (key : string) (depth : Z)
    (root : Node) (current : ref) : result (Node * ref) :=
  match first (hasKey key) (focus root current) with
  | Some node =>
      (* key already added on prior iteration *)
      Ok (root, (current ++ node)%list)
  | None =>
      match allNuggets st !! key with
      | None => Throw AssertionError
      | Some nugget =>
          let child := parse (mkModel depth [] (Some nugget)) in
          let index :=
            findInsertIndex compare (children (focus root current)) (model child) in
          Ok (update (addChild compare child) current root, (current ++ [index])%list)
      end
  end.

Fixpoint walkKeys (st : Catalog) (keys : list string) (depth : Z)
    (root : Node) (current : ref) : result Node :=
  match keys with
  | [] => Ok root
  | key :: keys' =>
      next ←ᵣ visitKey st key depth root current;
      walkKeys st keys' (depth + 1) next.1 next.2
  end.

Definition rootOf (st : Catalog) : Node :=
  parse (mkModel 0 [] (allNuggets st !! "adit")).

(** The loop over the cursor. *)
Fixpoint walkPaths (st : Catalog) (paths : list (list string)) (root : Node) : result Node :=
  match paths with
  | [] => Ok root
  | keys :: paths' =>
      root' ←ᵣ walkKeys st keys 1 root [];
      walkPaths st paths' root'
  end.

(** [getTree ()]: [paths] is what the cursor of the path query yields,
    each [c.keys] already split at the bars. *)
Definition getTree (st : Catalog) (paths : list (list string)) : result Node :=
  walkPaths st paths (rootOf st).

(** *** getOrdered *)

Definition modelBody (m : Model) : option string := nug m ≫= body.

(** [node.model._key] as a property name: [undefined] prints itself. *)
Definition keyName (m : Model) : string := default "undefined" (key m).

(** [node.model._id.startsWith('passage')] *)
Definition idIsPassage (m : Model) : result bool :=
  match nug m with
  | Some n => Ok (isPassageId n)
  | None => Throw TypeError
  end.

(** The callback of the walk of [getOrdered]: what it pushes. *)
Definition orderedChunk (st : Catalog) (node : Node) : result (list string) :=
  skip ←ᵣ
    (if negb (truthy (modelBody (model node))) && negb (hasChildren node)
     then idIsPassage (model node) else Ok false);
  if (skip : bool) then Ok []
  else
    md ←ᵣ mdForExtract st (keyName (model node)) (depth (model node));
    if truthy md && allowExtract st (orEmpty md)
    then (r ←ᵣ rewriteHeadings (orEmpty md) (depth (model node)); Ok [r])
    else Ok [].

Definition orderedOf (st : Catalog) (treeRoot : Node) : result (list string) :=
  chunks ←ᵣ rmapM (orderedChunk st) (nodes treeRoot);
  Ok (concat chunks).

(** [getOrdered ()] *)
Definition getOrdered (st : Catalog) (paths : list (list string)) : result (list string) :=
  treeRoot ←ᵣ getTree st paths;
  orderedOf st treeRoot.

(** *** getPaged *)

Definition withChunks (cs : list string) (m : Model) : Model :=
  mkModel (depth m) cs (nug m).

(** The test of the first walk: an empty leaf node. *)
Definition bodilessLeaf (node : Node) : bool :=
  negb (hasChildren node) && negb (bool_decide (is_Some (modelBody (model node)))).

(** The first walk, at one node: the model it leaves behind. *)
Definition pagedChunk (st : Catalog) (node : Node) : result Model :=
  if bodilessLeaf node then Ok (model node)
  else
    md ←ᵣ mdForExtract st (keyName (model node)) (depth (model node));
    if truthy md && allowExtract st (orEmpty md)
    then Ok (withChunks (chunks (model node) ++ [orEmpty md])%list (model node))
    else Ok (model node).

Definition rmapNodes (f : Node → result Node) : list Node → result (list Node) :=
  fix go (l : list Node) : result (list Node) :=
    match l with
    | [] => Ok []
    | a :: l' => b ←ᵣ f a; bs ←ᵣ go l'; Ok (b :: bs)
    end.

Fixpoint generate (st : Catalog) (t : Node) : result Node :=
  m ←ᵣ pagedChunk st t;
  cs ←ᵣ rmapNodes (generate st) (children t);
  Ok (mkNode m cs).

(** [toDrop.forEach(d => d.drop())]: the nodes the first walk listed
    leave the child list of their parent; [drop] of the root does
    nothing. *)
Fixpoint dropListed (t : Node) : Node :=
  mkNode (model t)
    (children t ≫= (fun c => if bodilessLeaf c then [] else [dropListed c])).

Definition typeIs (s : string) (m : Model) : bool :=
  bool_decide ((nug m ≫= type) = Some s).

Definition modelIsSeam (m : Model) : bool :=
  match nug m ≫= nuggets with
  | Some _ => true
  | None => false
  end.

(** The test of the collation walk for a node below [pMod]. *)
Definition foldsUp (pMod : Model) (node : Node) : bool :=
  typeIs "passage" pMod && negb (modelIsSeam pMod) &&
  typeIs "nugget" (model node) && (0 <? length (chunks (model node)))%nat.

(** The collation walk: a parent is visited before its children, so what
    a child hands up are the chunks the first walk gave it. [handedUp]
    tells that the walk has just moved the chunks of [t] to its parent and
    set [t.model.chunks = []]. *)
Fixpoint collateFrom (handedUp : bool) (t : Node) : Node :=
  let pMod := model t in
  let own := if handedUp then [] else chunks pMod in
  let handed :=
    children t ≫= (fun c => if foldsUp pMod c then chunks (model c) else []) in
  mkNode (withChunks (own ++ handed)%list pMod)
         (map (fun c => collateFrom (foldsUp pMod c) c) (children t)).

Definition collate (treeRoot : Node) : Node := collateFrom false treeRoot.

(** [n => !n.hasChildren() && n.model.chunks.length === 0] *)
Definition emptyLeaf (n : Node) : bool :=
  negb (hasChildren n) && (length (chunks (model n)) =? 0)%nat.

(** [treeRoot.all(...)] *)
Definition emptyLeaves (treeRoot : Node) : list Node := all emptyLeaf treeRoot.

(** [emptyLeaves.forEach(n => n.drop())]: every listed node is a leaf, so
    each one leaves the child list of its parent and nothing else moves;
    [drop] of the root does nothing. *)
Fixpoint dropEmptyLeaves (t : Node) : Node :=
  mkNode (model t)
    (children t ≫= (fun c => if emptyLeaf c then [] else [dropEmptyLeaves c])).

(** The [do ... while (len)] loop; [None] when [fuel] rounds do not end
    it. *)
Fixpoint pruneLoop (fuel : nat) (treeRoot : Node) : option Node :=
  match fuel with
  | O => None
  | S fuel' =>
      let len := length (emptyLeaves treeRoot) in
      let treeRoot' := dropEmptyLeaves treeRoot in
      if (len =? 0)%nat then Some treeRoot' else pruneLoop fuel' treeRoot'
  end.

(** [getPaged ()], on the tree that [getTree] returned. *)
Definition pagedOf (fuel : nat) (st : Catalog) (treeRoot : Node) : result (option Node) :=
  t1 ←ᵣ generate st treeRoot;
  Ok (pruneLoop fuel (collate (dropListed t1))).

Definition getPaged (fuel : nat) (st : Catalog) (paths : list (list string))
  : result (option Node) :=
  treeRoot ←ᵣ getTree st paths;
  pagedOf fuel st treeRoot.

(** [getSeamNuggetMarkdown ()] *)
Definition getSeamNuggetMarkdown (st : Catalog) (paths : list (list string))
  : result (Catalog * list string) :=
  st' ←ᵣ populateChunks st;
  out ←ᵣ getOrdered st' paths;
  Ok (st', out).

(** [getSeamNuggetTree ()] *)
Definition getSeamNuggetTree (fuel : nat) (st : Catalog) (paths : list (list string))
  : result (Catalog * option Node) :=
  st' ←ᵣ populateChunks st;
  t ←ᵣ getPaged fuel st' paths;
  Ok (st', t).

End WithComparator.

End Tree.

(** ** Properties read off the state and the trees *)

(** Every nugget is stored under its own key, as [init] stores it. *)
Definition keyed (st : Catalog) : Prop :=
  ∀ k n, allNuggets st !! k = Some n → _key n = k.

Module Shape.
Import TreeModel Tree.

Definition nodeKey (n : Node) : option string := key (model n).

(** The keys of the nodes, in the order of the walk. *)
Definition keys (t : Node) : list (option string) :=
  gather (fun m _ => [key m]) t.

(** The models of the nodes, in the order of the walk. *)
Definition models (t : Node) : list Model :=
  gather (fun m _ => [m]) t.

(** The models of the nodes below the root. *)
Definition modelsBelow (t : Node) : list Model :=
  children t ≫= models.

(** The pairs of the key of a node and the key of one of its children. *)
Definition edges (t : Node) : list (option string * option string) :=
  gather (fun m below => (fun c => (key m, key c)) <$> below) t.

(** The keys of the children, node by node. *)
Definition siblings (t : Node) : list (list (option string)) :=
  gather (fun _ below => [key <$> below]) t.

Definition childKeys (n : Node) : list (option string) :=
  nodeKey <$> children n.

(** Every key stands on one route: wherever the paths mention it, the
    same keys lead to it. *)
Definition singleRoute (paths : list (list string)) : Prop :=
  ∀ p q i j k,
    p ∈ paths → q ∈ paths → p !! i = Some k → q !! j = Some k →
    take i p = take j q.

(** Every path starts at the adit. *)
Definition fromAdit (paths : list (list string)) : Prop :=
  ∀ p, p ∈ paths → head p = Some "adit".

(** The keys in the tree are keys of the lookup. *)
Definition known (st : Catalog) (root : Node) : Prop :=
  ∀ k, Some k ∈ keys root → is_Some (allNuggets st !! k).


(** Two keys that follow each other in a path. *)
Definition consecutive (paths : list (list string)) (a k : string) : Prop :=
  ∃ p i, p ∈ paths ∧ p !! i = Some a ∧ p !! S i = Some k.

(** The tree mirrors the paths: one node per key, the adit on top, and
    every edge between two keys that follow each other in a path. *)
Definition mirrors (paths : list (list string)) (root : Node) : Prop :=
  NoDup (keys root) ∧
  nodeKey root = Some "adit" ∧
  ∀ a k, (a, k) ∈ edges root →
         ∃ a' k', a = Some a' ∧ k = Some k' ∧ consecutive paths a' k'.

(** The nuggets in the tree are the ones of the lookup. *)
Definition genuine (st : Catalog) (root : Node) : Prop :=
  ∀ m n, m ∈ models root → nug m = Some n → allNuggets st !! _key n = Some n.

(** The lookup finds no key of the paths without the key being stored: a
    key of the paths that is not stored is none of the names that a plain
    object inherits. *)
Definition ownLookups (st : Catalog) (paths : list (list string)) : Prop :=
  ∀ p k, p ∈ paths → k ∈ p → allNuggets st !! k = None → Obj.ordinary k.

(** No key of the paths is a name that a plain object inherits. *)
Definition ordinaryKeys (paths : list (list string)) : Prop :=
  ∀ p k, p ∈ paths → k ∈ p → Obj.ordinary k.

(** [FOR v, e, p IN 0..10000 OUTBOUND]: a path of the traversal has at
    most 10000 edges, so at most 10001 keys, and that is the highest value
    the counter of [getTree] reaches. *)
Definition maxDepth : Z := 10001.

Definition traversed (paths : list (list string)) : Prop :=
  ∀ p, p ∈ paths → Z.of_nat (length p) ≤ maxDepth.

(** What one round of the walk does, read off [visitKey]: either the key
    is found below the current node and nothing changes, or no node below
    the current node has the key and a leaf is added. *)
Inductive round (compare : Model → Model → Z) (st : Catalog)
    (k : string) (d : Z) (root : Node) (current : ref) : Node → ref → Prop :=
  | round_found rel :
      first (hasKey k) (focus root current) = Some rel →
      valid root (current ++ rel) →
      nodeKey (focus root (current ++ rel)) = Some k →
      round compare st k d root current root (current ++ rel)
  | round_added nugget index :
      (∀ n, n ∈ nodes (focus root current) → nodeKey n ≠ Some k) →
      allNuggets st !! k = Some nugget →
      let m := mkModel d [] (Some nugget) in
      valid (update (addChild compare (parse m)) current root) (current ++ [index]) →
      focus (update (addChild compare (parse m)) current root) (current ++ [index])
        = parse m →
      round compare st k d root current
        (update (addChild compare (parse m)) current root) (current ++ [index]).

End Shape.

Module Import Samples.
Import Str.

Definition passage (k l : string) (b : option string) : Nugget :=
  mkNugget k ("passage/" +:+ k) (Some "passage") l None b None.

Definition nugget (k l : string) (b : option string) : Nugget :=
  mkNugget k ("nugget/" +:+ k) (Some "nugget") l None b None.

Definition seam (k l : string) (b : option string) (grouped : list string) : Nugget :=
  mkNugget k ("nugget/" +:+ k) (Some "nugget") l None b (Some grouped).

(** A fragment whose second heading skips a level. *)
Definition skippingFragment : string :=
  "# A" +:+ nl +:+ "### B" +:+ nl +:+ "#### C".

(** A mine with the adit alone. *)
Definition emptyMine : Catalog :=
  Catalog.init [passage "adit" "Home" None] (Catalog.new (Some 0)).

(** A mine with one passage below the adit. *)
Definition smallMine : Catalog :=
  Catalog.init [passage "adit" "Home" None; passage "a" "A" (Some "text of a")]
    (Catalog.new (Some 0)).

(** A mine with a seam [S] that groups [x] and [y]. *)
Definition seamMine : Catalog :=
  Catalog.init
    [passage "adit" "Home" None;
     seam "S" "Seam" (Some "S-body") ["x"; "y"];
     nugget "x" "Ex" (Some "X");
     nugget "y" "Why" (Some "Y")]
    (Catalog.new (Some 0)).

Definition seamPaths : list (list string) :=
  [["adit"]; ["adit"; "S"]; ["adit"; "x"]; ["adit"; "y"]].

(** A mine whose seam [S] groups the passage [p]. *)
Definition groupedPassageMine : Catalog :=
  Catalog.init
    [passage "adit" "Home" None;
     seam "S" "Seam" (Some "S-body") ["p"];
     passage "p" "Pea" (Some "P-body")]
    (Catalog.new (Some 0)).

Definition groupedPassagePaths : list (list string) :=
  [["adit"]; ["adit"; "S"]; ["adit"; "p"]].

(** A diamond: [x] is reached through [a] and through [b]. *)
Definition diamondMine : Catalog :=
  Catalog.init
    [passage "adit" "Home" None;
     passage "a" "A" None;
     passage "b" "B" None;
     nugget "x" "Ex" (Some "X");
     nugget "y" "Why" (Some "Y")]
    (Catalog.new (Some 0)).

Definition diamondPaths : list (list string) :=
  [["adit"]; ["adit"; "a"]; ["adit"; "a"; "x"]; ["adit"; "a"; "x"; "y"];
   ["adit"; "b"]; ["adit"; "b"; "x"]; ["adit"; "b"; "x"; "y"]].

(** A mine whose only text is shorter than the minimum of ten. *)
Definition shortMine : Catalog :=
  Catalog.init
    [passage "adit" "Home" (Some ("# Home" +:+ nl +:+ "abc"))]
    (Catalog.new (Some 10)).

(** A tree after the collation walk: the first child of the root has no
    chunk and a single child without chunks. *)
Definition collatedTree : Tree.Node :=
  TreeModel.mkNode (mkModel 0 ["text"] None)
    [TreeModel.mkNode (mkModel 2 [] None) [TreeModel.mkNode (mkModel 3 [] None) []];
     TreeModel.mkNode (mkModel 2 ["more"] None) []].

End Samples.
(** ** Further properties: what they speak about *)

Module Levels.
Import Headings.

(** No level of [ls] stands more than one above the level before it;
    [last] is the level before the first one. *)
Fixpoint steps (last : Z) (ls : list Z) : Prop :=
  match ls with
  | [] => True
  | l :: ls' => l ≤ last + 1 ∧ steps l ls'
  end.

Definition noSkip (ls : list Z) : Prop :=
  match ls with
  | [] => True
  | l :: ls' => steps l ls'
  end.

(** The level of a heading after the first three maps of [newHeads]:
    moved by the offset, cut at six, raised to the depth. *)
Definition placed (depth first l : Z) : Z :=
  let l := l - first + depth in
  let l := if l >? MAX then MAX else l in
  if l <? depth then depth else l.

End Levels.

Module Chars.
Import Str.

Fixpoint every (p : ascii → bool) (s : string) : bool :=
  match s with
  | EmptyString => true
  | String c s' => p c && every p s'
  end.

Definition nonEmpty (s : string) : bool :=
  match s with
  | EmptyString => false
  | String _ _ => true
  end.

(** [s.slice(n)] *)
Fixpoint dropStr (n : nat) (s : string) : string :=
  match n, s with
  | O, _ => s
  | S n', String _ s' => dropStr n' s'
  | S _, EmptyString => EmptyString
  end.

(** The first character is there and is no blank. *)
Definition startsPlain (s : string) : bool :=
  match s with
  | EmptyString => false
  | String c _ => negb (isSpace c)
  end.

(** The shape of a match of the heading expression: hashes, blanks, and
    a text without a line terminator, none of them empty. *)
Definition wellFormedMatch (m : HeadingRe.rmatch) : Prop :=
  nonEmpty (HeadingRe.p1 m) = true ∧ every isHash (HeadingRe.p1 m) = true ∧
  nonEmpty (HeadingRe.blanks m) = true ∧ every isSpace (HeadingRe.blanks m) = true ∧
  nonEmpty (HeadingRe.p2 m) = true ∧
  every (fun c => negb (isLineTerminator c)) (HeadingRe.p2 m) = true.

End Chars.

Module Order.
Import TreeModel Tree.

(** The comparator never puts two models each after the other. *)
Definition oneWay (compare : Model → Model → Z) : Prop :=
  ∀ a b, compare a b > 0 → compare b a ≤ 0.

(** Every model is followed by one that the comparator does not put
    before it. *)
Definition inOrder (compare : Model → Model → Z) (ms : list Model) : Prop :=
  Sorted (fun a b => compare a b ≤ 0) ms.

(** A model put in front of the first model that the comparator puts
    after it, which is where [findInsertIndex] points. *)
Fixpoint insertModel (compare : Model → Model → Z) (m : Model) (ms : list Model)
  : list Model :=
  match ms with
  | [] => [m]
  | a :: ms' => if compare a m >? 0 then m :: a :: ms' else a :: insertModel compare m ms'
  end.

(** The models of the children, node by node. *)
Definition families (t : Node) : list (list Model) :=
  gather (fun _ below => [below]) t.

End Order.

Module Paging.
Import TreeModel Tree.

(** All the chunks that the nodes of a tree hold, in the order of the
    walk. *)
Definition allChunks (t : Node) : list string :=
  gather (fun m _ => chunks m) t.

(** Some node of the tree holds a chunk. *)
Definition hasChunk (t : Node) : Prop :=
  Exists (fun n => chunks (model n) ≠ []) (nodes t).

(** The model of every node carries a nugget and a depth that is not
    negative. *)
Definition sound (t : Node) : Prop :=
  ∀ n, n ∈ nodes t → is_Some (nug (model n)) ∧ 0 ≤ depth (model n).

(** No node holds a chunk yet, as in a tree fresh from [getTree]. *)
Definition blank (t : Node) : Prop :=
  ∀ n, n ∈ nodes t → chunks (model n) = [].

(** The chunks that the first walk of [getPaged] leaves at one node of the
    tree it walks. *)
Definition generated (st : Catalog) (n : Node) : list string :=
  match pagedChunk st n with
  | Ok m => chunks m
  | Throw _ => []
  end.

End Paging.

Module Import MoreSamples.


End MoreSamples.

(** * Theorems *)

(** ** Heading levels *)

Module HeadingFacts.
Import Str HeadingRe Headings.

Lemma clampDepth_le depth : clampDepth depth ≤ MAX.
Proof. unfold clampDepth, MAX. destruct (Z.gtb_spec depth 6); lia. Qed.

(** The limiter keeps every level inside an interval that holds the value
    of [last] it starts from and all the levels it is given. *)
Lemma stepLimit_bounds lo hi last ls :
  lo ≤ last →
  Forall (fun l => lo ≤ l ≤ hi) ls →
  Forall (fun l => lo ≤ l ≤ hi) (stepLimit last ls).
Proof.
  intros Hlast Hls. revert last Hlast.
  induction Hls as [|l ls [Hlo Hhi] _ IH]; intros last Hlast; simpl.
  - constructor.
  - constructor.
    + destruct (Z.gtb_spec l (last + 1)); lia.
    + apply IH. lia.
Qed.

(** No level that [rewriteHeadings] writes is below the clamped target
    depth or above six. *)
Lemma newLevels_bounds depth depths :
  Forall (fun l => clampDepth depth ≤ l ≤ MAX)
         (newLevels (clampDepth depth) depths).
Proof.
  unfold newLevels. apply stepLimit_bounds; [lia|].
  pose proof (clampDepth_le depth) as Hd.
  rewrite !Forall_map. apply Forall_forall. intros l _. simpl.
  destruct (Z.gtb_spec (l - hd 0 depths + clampDepth depth) MAX) as [H1|H1];
    match goal with |- context [?a <? ?b] => destruct (Z.ltb_spec a b) end; lia.
Qed.

(** The limiter compares with the level it was given last, not with the
    level it returned last: after a level that it lowered, the next one
    may stand two above. *)
Lemma stepLimit_after_lowered last l l' ls :
  l > last + 1 → l' = l + 1 →
  stepLimit last (l :: l' :: ls) = (last + 1) :: l' :: stepLimit l' ls.
Proof.
  intros H ->. simpl.
  destruct (Z.gtb_spec l (last + 1)); [|lia].
  destruct (Z.gtb_spec (l + 1) (l + 1)); [lia|]. reflexivity.
Qed.

(** C1, at the fragment "# A / ### B / #### C" and depth 1: the rewritten
    headings have the levels 1, 2 and 4, so the third heading stands two
    levels above the final level of the second one. The limiter of
    [rewriteHeadings] remembers the level before it was lowered. *)
Theorem rewriteHeadings_level_jump :
  rewriteHeadings skippingFragment 1
    = Ok ("# A" +:+ nl +:+ "## B" +:+ nl +:+ "#### C") ∧
  finalLevels skippingFragment 1 = [1; 2; 4] ∧
  headingDepths ("# A" +:+ nl +:+ "## B" +:+ nl +:+ "#### C") = [1; 2; 4].
Proof. repeat split; vm_compute; reflexivity. Qed.

End HeadingFacts.

(** ** The state of the catalog *)

Module CatalogFacts.
Import Str HeadingRe Headings Catalog.

Lemma append_cons x (a b : string) : String x a +:+ b = String x (a +:+ b).
Proof. reflexivity. Qed.

Lemma append_empty_l (b : string) : EmptyString +:+ b = b.
Proof. reflexivity. Qed.

Lemma append_assoc (a b c : string) : (a +:+ b) +:+ c = a +:+ (b +:+ c).
Proof.
  induction a as [|x a IH]; [done|]. by rewrite !append_cons, IH.
Qed.

Lemma init_keyed docs min : keyed (init docs (new min)).
Proof.
  unfold keyed, init. simpl.
  assert (∀ (m : gmap string Nugget),
            (∀ k n, m !! k = Some n → _key n = k) →
            ∀ k n, foldl (fun all c => <[_key c := c]> all) m docs !! k = Some n →
                   _key n = k) as H.
  { induction docs as [|c docs IH]; intros m Hm k n; simpl; [apply Hm|].
    apply IH. intros k' n'. rewrite lookup_insert.
    case_decide; [intros [= <-]; done | apply Hm]. }
  apply H. intros k n. by rewrite lookup_empty.
Qed.

Lemma elem_of_values st n :
  n ∈ values st ↔ ∃ k, allNuggets st !! k = Some n.
Proof.
  unfold values. rewrite list_elem_of_fmap. split.
  - intros [[k n'] [-> Hin]]. exists k. by apply elem_of_map_to_list.
  - intros [k Hk]. exists (k, n). split; [done|]. by apply elem_of_map_to_list.
Qed.

Lemma values_keys st : keyed st → _key <$> values st = (map_to_list (allNuggets st)).*1.
Proof.
  intros Hk. unfold values. rewrite <- list_fmap_compose.
  apply list_fmap_ext. intros i [k n] Hi. simpl.
  apply Hk. apply elem_of_map_to_list. by eapply list_elem_of_lookup_2.
Qed.

Lemma values_NoDup st : keyed st → NoDup (_key <$> values st).
Proof. intros Hk. rewrite values_keys by done. apply NoDup_fst_map_to_list. Qed.

Lemma elem_of_seamsOf st s :
  s ∈ seamsOf st ↔ (∃ k, allNuggets st !! k = Some s) ∧ isSeam s = true.
Proof. unfold seamsOf. rewrite list_elem_of_filter, elem_of_values. tauto. Qed.

Lemma seamsOf_NoDup st : keyed st → NoDup (_key <$> seamsOf st).
Proof.
  intros Hk. apply (sublist_NoDup _ (_key <$> values st)); [by apply values_NoDup|].
  apply fmap_sublist. unfold seamsOf. apply sublist_filter.
Qed.

(** What a loop of writes, one per nugget of a list, leaves under a key. *)
Lemma writes_lookup_other (f : Nugget → string) l (m : gmap string string) k :
  k ∉ _key <$> l →
  foldl (fun chunks s => <[_key s := f s]> chunks) m l !! k = m !! k.
Proof.
  revert m. induction l as [|s l IH]; intros m Hk; simpl; [done|].
  rewrite fmap_cons, not_elem_of_cons in Hk. destruct Hk as [Hne Hk].
  rewrite IH by done. by rewrite lookup_insert_ne.
Qed.

Lemma writes_lookup (f : Nugget → string) l (m : gmap string string) s :
  NoDup (_key <$> l) → s ∈ l →
  foldl (fun chunks s => <[_key s := f s]> chunks) m l !! _key s = Some (f s).
Proof.
  revert m. induction l as [|s' l IH]; intros m Hnd Hin; simpl.
  - by apply elem_of_nil in Hin.
  - rewrite fmap_cons, NoDup_cons in Hnd. destruct Hnd as [Hnotin Hnd].
    apply elem_of_cons in Hin as [->|Hin].
    + rewrite writes_lookup_other by done. by rewrite lookup_insert_eq.
    + by apply IH.
Qed.

Lemma bodies_lookup_other l (m : gmap string string) k :
  k ∉ _key <$> l →
  foldl (fun chunks nugget =>
           if truthy (body nugget)
           then <[_key nugget := orEmpty (body nugget)]> chunks
           else chunks) m l !! k = m !! k.
Proof.
  revert m. induction l as [|s l IH]; intros m Hk; simpl; [done|].
  rewrite fmap_cons, not_elem_of_cons in Hk. destruct Hk as [Hne Hk].
  rewrite IH by done. destruct (truthy (body s)); [|done].
  by rewrite lookup_insert_ne.
Qed.

Lemma elem_of_writtenNugs st k :
  k ∈ writtenNugs st ↔
  ∃ s, s ∈ seamsOf st ∧ (k = _key s ∨ k ∈ default [] (nuggets s)).
Proof.
  unfold writtenNugs, nugList. rewrite elem_of_list_to_set, list_elem_of_bind.
  split; intros [s Hs]; exists s; rewrite elem_of_cons in *; tauto.
Qed.

(** The chunks after [populateChunks], key by key. *)
Lemma populateChunks_written st st' k :
  populateChunks st = Ok st' → k ∈ writtenNugs st →
  seamNuggetChunks st' !! k =
    foldl (fun chunks seam => <[_key seam := seamChunk st seam]> chunks)
          (seamNuggetChunks st) (seamsOf st) !! k.
Proof.
  unfold populateChunks, initCheck. destruct (initialised st); [|done]. simpl.
  intros [= <-] Hk. simpl. apply bodies_lookup_other.
  rewrite list_elem_of_fmap. intros [n [-> Hn]].
  apply list_elem_of_filter in Hn as [Hn _]. done.
Qed.

Lemma populateChunks_allNuggets st st' :
  populateChunks st = Ok st' →
  allNuggets st' = allNuggets st ∧ minLength st' = minLength st.
Proof.
  unfold populateChunks, initCheck. destruct (initialised st); [|done]. simpl.
  by intros [= <-].
Qed.

Lemma populateChunks_seam st st' s :
  keyed st → populateChunks st = Ok st' → s ∈ seamsOf st →
  seamNuggetChunks st' !! _key s = Some (seamChunk st s).
Proof.
  intros Hk Hp Hs. rewrite (populateChunks_written st st') by
    (try done; apply elem_of_writtenNugs; eauto).
  apply writes_lookup; [by apply seamsOf_NoDup | done].
Qed.

(** A grouped key that is no seam itself has no chunk of its own, unless
    one was there before. *)
Lemma grouped_key_lookup st st' k :
  keyed st → populateChunks st = Ok st' → k ∈ writtenNugs st →
  (∀ n, allNuggets st !! k = Some n → isSeam n = false) →
  seamNuggetChunks st' !! k = seamNuggetChunks st !! k.
Proof.
  intros Hk Hp Hw Hns. rewrite (populateChunks_written st st') by done.
  apply writes_lookup_other. rewrite list_elem_of_fmap. intros [s [-> Hs]].
  apply elem_of_seamsOf in Hs as [[k' Hk'] Hseam].
  pose proof (Hk _ _ Hk') as <-. specialize (Hns _ Hk'). congruence.
Qed.

(** C4, at [getChunk] on a catalog fresh from its constructor: the call
    returns [undefined] for every key and depth and throws nothing. Only
    [populateChunks] runs [initCheck]. *)
Theorem getChunk_before_init :
  ∀ min key depth,
    initialised (new min) = false ∧
    getChunk (new min) key depth = Ok None ∧
    populateChunks (new min) = Throw IllegalState.
Proof.
  intros min key depth. split; [reflexivity|]. split; [|reflexivity].
  unfold getChunk, mdForExtract, new. simpl. by rewrite lookup_empty.
Qed.

(** C6, as amended: the chunk recorded under the seam's key is the empty
    accumulator, a newline and the seam's own body, then a newline and a
    grouped body for each grouped key in order; for the bodies "S-body",
    "X" and "Y" that is a newline followed by "S-body\nX\nY". *)
Theorem populateChunks_seam_chunk st st' (S x y : string) nS nx ny bS bx by' :
  keyed st →
  populateChunks st = Ok st' →
  allNuggets st !! S = Some nS → nuggets nS = Some [x; y] → body nS = Some bS →
  allNuggets st !! x = Some nx → body nx = Some bx →
  allNuggets st !! y = Some ny → body ny = Some by' →
  seamNuggetChunks st' !! S = Some (nl +:+ bS +:+ nl +:+ bx +:+ nl +:+ by').
Proof.
  intros Hk Hp HS HnS HbS Hx Hbx Hy Hby.
  assert (nS ∈ seamsOf st) as Hs.
  { apply elem_of_seamsOf. split; [eauto|]. unfold isSeam. by rewrite HnS. }
  pose proof (Hk _ _ HS) as HkS.
  pose proof (populateChunks_seam st st' nS Hk Hp Hs) as Hc.
  rewrite HkS in Hc. rewrite Hc. f_equal.
  unfold seamChunk. rewrite HkS, HnS. simpl.
  unfold getMd. rewrite HS, Hx, Hy, HbS, Hbx, Hby. simpl.
  rewrite append_empty_l, !append_assoc. reflexivity.
Qed.

Lemma populateChunks_seam_chunk_witness :
  ∃ st',
    populateChunks seamMine = Ok st' ∧
    seamNuggetChunks st' !! "S" = Some (nl +:+ "S-body" +:+ nl +:+ "X" +:+ nl +:+ "Y").
Proof.
  destruct (populateChunks seamMine) as [st'|] eqn:Hp; [|by vm_compute in Hp].
  exists st'. split; [done|].
  eapply (populateChunks_seam_chunk seamMine st' "S" "x" "y"
            (seam "S" "Seam" (Some "S-body") ["x"; "y"])
            (nugget "x" "Ex" (Some "X")) (nugget "y" "Why" (Some "Y")));
    [apply init_keyed | done | vm_compute; reflexivity ..].
Defined.

(** C6, as stated, fails on the seam mine: the recorded chunk starts with
    the newline that [getMd] puts after its empty accumulator. *)
Lemma seam_chunk_leading_newline :
  ∃ st',
    populateChunks seamMine = Ok st' ∧
    seamNuggetChunks st' !! "S" = Some (nl +:+ "S-body" +:+ nl +:+ "X" +:+ nl +:+ "Y") ∧
    seamNuggetChunks st' !! "S" ≠ Some ("S-body" +:+ nl +:+ "X" +:+ nl +:+ "Y").
Proof.
  destruct (populateChunks seamMine) as [st'|] eqn:Hp; [|by vm_compute in Hp].
  exists st'. split; [done|].
  assert (seamNuggetChunks st' !! "S"
          = Some (nl +:+ "S-body" +:+ nl +:+ "X" +:+ nl +:+ "Y")) as ->.
  { vm_compute in Hp. injection Hp as <-. vm_compute. reflexivity. }
  split; [done|]. vm_compute. discriminate.
Qed.

End CatalogFacts.

(** ** Trees and references *)

Module TreeFacts.
Import TreeModel.

Section Tree.
Context {M : Type}.
Implicit Types (t c : Node M) (r : ref) (cs : list (Node M)).

(** Induction over a tree, with the hypothesis for every child. *)
Lemma Node_ind' (P : Node M → Prop) :
  (∀ m cs, Forall P cs → P (mkNode m cs)) → ∀ t, P t.
Proof.
  intros H. fix IH 1. intros [m cs]. apply H.
  induction cs as [|c cs IHcs]; constructor; [apply IH | apply IHcs].
Qed.

Lemma Node_eta t : mkNode (model t) (children t) = t.
Proof. by destruct t. Qed.

Lemma nodes_unfold t : nodes t = t :: (children t ≫= nodes).
Proof. by destruct t. Qed.

Lemma elem_of_nodes_self t : t ∈ nodes t.
Proof. rewrite nodes_unfold. apply list_elem_of_here. Qed.

Lemma elem_of_nodes_child t c n :
  c ∈ children t → n ∈ nodes c → n ∈ nodes t.
Proof.
  intros Hc Hn. rewrite nodes_unfold. apply list_elem_of_further.
  apply list_elem_of_bind. eauto.
Qed.

Lemma elem_of_nodes_trans t c n : c ∈ nodes t → n ∈ nodes c → n ∈ nodes t.
Proof.
  revert c n. induction t as [m cs IH] using Node_ind'. intros c n Hc Hn.
  rewrite nodes_unfold in Hc. simpl in Hc.
  apply elem_of_cons in Hc as [->|Hc]; [done|].
  apply list_elem_of_bind in Hc as [c' [Hc Hc']].
  eapply (elem_of_nodes_child (mkNode m cs) c'); [done|].
  rewrite Forall_forall in IH. by eapply IH.
Qed.

Lemma focus_in_nodes t r : focus t r ∈ nodes t.
Proof.
  revert t. induction r as [|i r IH]; intros t; simpl.
  - apply elem_of_nodes_self.
  - destruct (children t !! i) as [c|] eqn:Hc; [|apply elem_of_nodes_self].
    eapply elem_of_nodes_child; [by eapply list_elem_of_lookup_2 | apply IH].
Qed.

Lemma valid_app t r r' : valid t r → valid (focus t r) r' → valid t (r ++ r').
Proof.
  revert t. induction r as [|i r IH]; intros t; simpl; [done|].
  destruct (children t !! i); [apply IH | done].
Qed.

Lemma focus_app t r r' : valid t r → focus t (r ++ r') = focus (focus t r) r'.
Proof.
  revert t. induction r as [|i r IH]; intros t; simpl; [done|].
  destruct (children t !! i); [apply IH | done].
Qed.

Lemma model_update (f : Node M → Node M) r t :
  (∀ c, model (f c) = model c) → model (update f r t) = model t.
Proof. intros Hf. destruct r; simpl; [apply Hf | done]. Qed.

Lemma valid_update (f : Node M → Node M) r t :
  valid t r → valid (update f r t) r.
Proof.
  revert t. induction r as [|i r IH]; intros t; simpl; [done|].
  rewrite list_lookup_alter_eq.
  destruct (children t !! i); simpl; [apply IH | done].
Qed.

Lemma focus_update (f : Node M → Node M) r t :
  valid t r → focus (update f r t) r = f (focus t r).
Proof.
  revert t. induction r as [|i r IH]; intros t; simpl; [done|].
  rewrite list_lookup_alter_eq.
  destruct (children t !! i); simpl; [apply IH | done].
Qed.

Lemma valid_update_snoc (f : Node M → Node M) r t i :
  valid t r → is_Some (children (f (focus t r)) !! i) →
  valid (update f r t) (r ++ [i]).
Proof.
  intros Hv Hi. apply valid_app; [by apply valid_update|].
  rewrite focus_update by done. simpl. by destruct Hi as [c ->].
Qed.

(** *** first *)

Lemma firstIn_Some (fn : Node M → bool) cs i r0 :
  firstIn (first fn) i cs = Some r0 →
  ∃ j r c, r0 = (i + j)%nat :: r ∧ cs !! j = Some c ∧ first fn c = Some r ∧
           ∀ j' c', (j' < j)%nat → cs !! j' = Some c' → first fn c' = None.
Proof.
  revert i. induction cs as [|c cs IH]; intros i; simpl; [done|].
  destruct (first fn c) as [r|] eqn:Hc.
  - intros [= <-]. exists 0%nat, r, c. rewrite Nat.add_0_r.
    repeat split; [done|]. intros; lia.
  - intros H. apply IH in H as (j & r & c' & -> & Hj & Hr & Hbefore).
    exists (S j), r, c'. repeat split; [f_equal; lia | done | done |].
    intros [|j'] c'' Hlt Hc''; simpl in Hc''; [by injection Hc'' as <-|].
    eapply Hbefore; [|done]. lia.
Qed.

Lemma firstIn_None (fn : Node M → bool) cs i :
  firstIn (first fn) i cs = None → Forall (fun c => first fn c = None) cs.
Proof.
  revert i. induction cs as [|c cs IH]; intros i; simpl; [constructor|].
  destruct (first fn c) eqn:Hc; [done|]. intros H. constructor; eauto.
Qed.

Lemma first_unfold fn t :
  first fn t = if fn t then Some [] else firstIn (first fn) 0 (children t).
Proof. by destruct t. Qed.

(** What [first] returns is a valid reference to a node that [fn]
    accepts. *)
Lemma first_Some fn t r :
  first fn t = Some r → valid t r ∧ fn (focus t r) = true.
Proof.
  revert r. induction t as [m cs IH] using Node_ind'. intros r.
  rewrite first_unfold. simpl. destruct (fn (mkNode m cs)) eqn:Hfn.
  - intros [= <-]. done.
  - intros H. apply firstIn_Some in H as (j & r' & c & -> & Hj & Hr & _).
    simpl. rewrite Hj. rewrite Forall_forall in IH.
    apply IH; [by eapply list_elem_of_lookup_2 | done].
Qed.

(** When [first] returns nothing, [fn] accepts no node of the tree. *)
Lemma first_None fn t :
  first fn t = None → ∀ n, n ∈ nodes t → fn n = false.
Proof.
  induction t as [m cs IH] using Node_ind'.
  rewrite first_unfold. simpl. destruct (fn (mkNode m cs)) eqn:Hfn; [done|].
  intros H n Hn. apply firstIn_None in H.
  rewrite ?nodes_unfold in Hn. simpl in Hn.
  apply elem_of_cons in Hn as [->|Hn]; [done|].
  apply list_elem_of_bind in Hn as [c [Hn Hc]].
  rewrite Forall_forall in IH, H. apply (IH c); auto.
Qed.

(** *** addChild *)

Lemma findInsertIndex_le cmp cs (el : M) :
  (findInsertIndex cmp cs el ≤ length cs)%nat.
Proof. induction cs as [|c cs IH]; simpl; [lia|]. destruct (_ >? _); lia. Qed.

Lemma splice_lookup {A} (i : nat) (x : A) l :
  (i ≤ length l)%nat → splice i x l !! i = Some x.
Proof.
  intros Hi. unfold splice. rewrite lookup_app_r; rewrite length_take; [|lia].
  by replace (i - i `min` length l)%nat with 0%nat by lia.
Qed.

Lemma splice_Permutation {A} (i : nat) (x : A) l : splice i x l ≡ₚ x :: l.
Proof.
  unfold splice. rewrite <- Permutation_middle. by rewrite take_drop.
Qed.

Lemma children_addChild cmp child t :
  children (addChild cmp child t) ≡ₚ child :: children t.
Proof. apply splice_Permutation. Qed.

Lemma model_addChild cmp child t : model (addChild cmp child t) = model t.
Proof. done. Qed.

Lemma addChild_lookup cmp child t :
  children (addChild cmp child t)
    !! findInsertIndex cmp (children t) (model child) = Some child.
Proof. apply splice_lookup, findInsertIndex_le. Qed.

Lemma nodes_addChild cmp child t :
  nodes (addChild cmp child t) ≡ₚ addChild cmp child t :: nodes child ++ (children t ≫= nodes).
Proof.
  rewrite nodes_unfold. constructor.
  rewrite children_addChild. by rewrite bind_cons.
Qed.

(** *** Values gathered over the nodes *)

Lemma gather_unfold {B} (g : M → list M → list B) t :
  gather g t = g (model t) (model <$> children t) ++ (children t ≫= gather g).
Proof.
  unfold gather. rewrite nodes_unfold, bind_cons. f_equal.
  induction (children t) as [|c cs IH]; [done|].
  by rewrite !bind_cons, bind_app, IH.
Qed.

Lemma fmap_splice {A B} (h : A → B) i x l :
  h <$> splice i x l = splice i (h x) (h <$> l).
Proof. unfold splice. by rewrite fmap_app, fmap_cons, fmap_take, fmap_drop. Qed.

Lemma bind_alter_Permutation {B} (h : Node M → list B) (g : Node M → Node M)
    cs i c old new rest :
  cs !! i = Some c → h c ≡ₚ old ++ rest → h (g c) ≡ₚ new ++ rest →
  ∃ rest', cs ≫= h ≡ₚ old ++ rest' ∧ alter g i cs ≫= h ≡ₚ new ++ rest'.
Proof.
  revert i. induction cs as [|c' cs IH]; intros [|i] Hi Hold Hnew; csimpl in *; try done.
  - injection Hi as ->. exists (rest ++ (cs ≫= h)).
    rewrite Hold, Hnew. by rewrite !(assoc_L (++)).
  - destruct (IH _ Hi Hold Hnew) as (rest' & H1 & H2).
    exists (h c' ++ rest'). rewrite H1, H2.
    split; apply Permutation_app_swap_app.
Qed.

Lemma fmap_model_alter_update (f : Node M → Node M) r i cs :
  (∀ c, model (f c) = model c) →
  model <$> alter (update f r) i cs = model <$> cs.
Proof.
  intros Hf. rewrite (list_fmap_alter _ _ id).
  - by apply list_alter_id.
  - apply Forall_forall. intros c _. by apply model_update.
Qed.

(** A leaf added through a valid reference: the node referred to reads its
    children anew, the leaf reads itself, every other node reads what it
    read before. *)
Lemma gather_update_addChild {B} (g : M → list M → list B) cmp (m : M) r t :
  valid t r →
  let f := focus t r in
  let index := findInsertIndex cmp (children f) m in
  ∃ rest,
    gather g t ≡ₚ g (model f) (model <$> children f) ++ rest ∧
    gather g (update (addChild cmp (parse m)) r t)
      ≡ₚ (g m [] ++ g (model f) (splice index m (model <$> children f))) ++ rest.
Proof.
  revert t. induction r as [|i r IH]; intros t Hv; simpl in *.
  - exists (children t ≫= gather g). split; [by rewrite gather_unfold|].
    rewrite gather_unfold. simpl. rewrite fmap_splice. simpl.
    assert (splice (findInsertIndex cmp (children t) m) (parse m) (children t)
              ≫= gather g ≡ₚ g m [] ++ (children t ≫= gather g)) as ->.
    { rewrite splice_Permutation, bind_cons, (gather_unfold g (parse m)). simpl.
      by rewrite (right_id_L [] (++)). }
    rewrite !(assoc_L (++)). f_equiv. apply (comm (++)).
  - destruct (children t !! i) as [c|] eqn:Hc; [|done].
    destruct (IH c Hv) as (rest & H1 & H2).
    destruct (bind_alter_Permutation (gather g) (update (addChild cmp (parse m)) r)
                _ _ _ _ _ _ Hc H1 H2) as (rest' & H3 & H4).
    exists (g (model t) (model <$> children t) ++ rest').
    rewrite !gather_unfold. simpl.
    rewrite fmap_model_alter_update by done. rewrite H3, H4.
    split; apply Permutation_app_swap_app.
Qed.

Lemma gather_singleton {B} (h : M → B) t :
  gather (fun m _ => [h m]) t = (fun n => h (model n)) <$> nodes t.
Proof.
  unfold gather. induction (nodes t) as [|n l IH]; [done|].
  by rewrite bind_cons, fmap_cons, IH.
Qed.

End Tree.
End TreeFacts.

(** ** The shape of the trees that getTree builds *)

Module BuildFacts.
Import TreeModel Catalog Tree Shape TreeFacts.

Section WithComparator.
Variable compare : Model → Model → Z.
Variable st : Catalog.
Implicit Types (t root : Node) (r current : ref).

Lemma keys_nodes t : keys t = nodeKey <$> nodes t.
Proof. apply gather_singleton. Qed.

Lemma models_nodes t : models t = model <$> nodes t.
Proof. apply (gather_singleton id). Qed.

Lemma keys_unfold t : keys t = nodeKey t :: (children t ≫= keys).
Proof. unfold keys. by rewrite gather_unfold. Qed.

Lemma models_unfold t : models t = model t :: modelsBelow t.
Proof. unfold models. by rewrite gather_unfold. Qed.

Lemma edges_unfold t :
  edges t = ((fun c => (nodeKey t, nodeKey c)) <$> children t) ++ (children t ≫= edges).
Proof. unfold edges. by rewrite gather_unfold, <- list_fmap_compose. Qed.

Lemma siblings_unfold t :
  siblings t = childKeys t :: (children t ≫= siblings).
Proof. unfold siblings. by rewrite gather_unfold, <- list_fmap_compose. Qed.

Lemma keys_grow m r t : valid t r → keys (update (addChild compare (parse m)) r t) ≡ₚ key m :: keys t.
Proof.
  intros Hv.
  destruct (gather_update_addChild (fun m _ => [key m]) compare m r t Hv)
    as (rest & H1 & H2).
  unfold keys. rewrite H1, H2. done.
Qed.

Lemma models_grow m r t : valid t r → models (update (addChild compare (parse m)) r t) ≡ₚ m :: models t.
Proof.
  intros Hv.
  destruct (gather_update_addChild (fun m _ => [m]) compare m r t Hv)
    as (rest & H1 & H2).
  unfold models. rewrite H1, H2. done.
Qed.


Lemma edges_grow m r t :
  valid t r → edges (update (addChild compare (parse m)) r t) ≡ₚ (nodeKey (focus t r), key m) :: edges t.
Proof.
  intros Hv.
  destruct (gather_update_addChild
              (fun m below => (fun c => (key m, key c)) <$> below) compare m r t Hv)
    as (rest & H1 & H2).
  unfold edges. rewrite H1, H2. simpl.
  rewrite fmap_splice, splice_Permutation. done.
Qed.

Lemma siblings_grow m r t :
  valid t r → Forall NoDup (siblings t) → key m ∉ childKeys (focus t r) →
  Forall NoDup (siblings (update (addChild compare (parse m)) r t)).
Proof.
  intros Hv Hs Hm.
  destruct (gather_update_addChild (fun _ below => [key <$> below]) compare m r t Hv)
    as (rest & H1 & H2).
  unfold siblings in *. rewrite H2. rewrite H1 in Hs. simpl in *.
  apply Forall_cons in Hs as [Hf Hrest].
  repeat constructor; [|done].
  rewrite fmap_splice, splice_Permutation. apply NoDup_cons. split; [|done].
  rewrite <- list_fmap_compose. exact Hm.
Qed.

(** *** One round of the walk *)

Lemma hasKey_true k n : hasKey k n = true ↔ nodeKey n = Some k.
Proof. unfold hasKey. by rewrite bool_decide_eq_true. Qed.

Lemma hasKey_false k n : hasKey k n = false ↔ nodeKey n ≠ Some k.
Proof. unfold hasKey. by rewrite bool_decide_eq_false. Qed.

Lemma visitKey_round k d root current root' current' :
  valid root current →
  visitKey compare st k d root current = Ok (root', current') →
  round compare st k d root current root' current'.
Proof.
  intros Hv. unfold visitKey.
  destruct (first (hasKey k) (focus root current)) as [rel|] eqn:Hf.
  - intros [= <- <-]. apply first_Some in Hf as Hf'. destruct Hf' as [Hvr Hk].
    apply round_found; [done | by apply valid_app |].
    rewrite focus_app by done. by apply hasKey_true.
  - destruct (allNuggets st !! k) as [nugget|] eqn:Hn; [|done].
    intros [= <- <-].
    pose proof (addChild_lookup compare (parse (mkModel d [] (Some nugget)))
                  (focus root current)) as Hl.
    apply (round_added compare st k d root current nugget); [|done| |].
    + intros n Hin. apply hasKey_false. by eapply first_None.
    + apply valid_update_snoc; [done|]. by eexists.
    + rewrite focus_app by (by apply valid_update).
      rewrite focus_update by done. simpl. simpl in Hl. by rewrite Hl.
Qed.

Lemma round_valid k d root current root' current' :
  round compare st k d root current root' current' → valid root' current'.
Proof. by destruct 1. Qed.

Lemma visitKey_throws k d root current e :
  visitKey compare st k d root current = Throw e → e = AssertionError.
Proof.
  unfold visitKey. destruct (first _ _); [done|].
  destruct (allNuggets st !! k); [done|]. by intros [= <-].
Qed.

(** *** The rule for a walk along one path *)

(** [I passed] holds when the walk along [p] has passed the keys
    [passed]. *)
Lemma walkKeys_rule (I : list string → Node → ref → Prop) p :
  (∀ passed k rest root current root' current',
      p = passed ++ k :: rest →
      valid root current → I passed root current →
      round compare st k (Z.of_nat (length passed) + 1) root current root' current' →
      I (passed ++ [k]) root' current') →
  ∀ ks passed root current root',
    p = passed ++ ks →
    valid root current → I passed root current →
    walkKeys compare st ks (Z.of_nat (length passed) + 1) root current = Ok root' →
    ∃ current', valid root' current' ∧ I p root' current'.
Proof.
  intros Hstep.
  induction ks as [|k ks IH]; intros passed root current root' Hp Hv HI; simpl.
  - intros [= <-]. exists current. rewrite app_nil_r in Hp. by subst.
  - destruct (visitKey compare st k _ root current) as [[root1 current1]|] eqn:Hk;
      [|done]. simpl.
    apply visitKey_round in Hk; [|done].
    intros Hw. replace (Z.of_nat (length passed) + 1 + 1)
      with (Z.of_nat (length (passed ++ [k])) + 1) in Hw
      by (rewrite length_app; simpl; lia).
    eapply IH; [|by eapply round_valid|by eapply Hstep|exact Hw].
    by rewrite <- (assoc_L (++)).
Qed.

Lemma walkPath_rule (I : list string → Node → ref → Prop) p root root' :
  (∀ passed k rest root current root' current',
      p = passed ++ k :: rest →
      valid root current → I passed root current →
      round compare st k (Z.of_nat (length passed) + 1) root current root' current' →
      I (passed ++ [k]) root' current') →
  I [] root [] →
  walkKeys compare st p 1 root [] = Ok root' →
  ∃ current', valid root' current' ∧ I p root' current'.
Proof.
  intros Hstep HI Hw. by eapply (walkKeys_rule I p Hstep p [] root []).
Qed.

Lemma walkKeys_throws ks d root current e :
  walkKeys compare st ks d root current = Throw e → e = AssertionError.
Proof.
  revert d root current. induction ks as [|k ks IH]; intros d root current; simpl; [done|].
  destruct (visitKey compare st k d root current) as [[root1 current1]|e'] eqn:Hk; simpl.
  - apply IH.
  - intros [= <-]. by eapply visitKey_throws.
Qed.

Lemma walkPaths_throws paths root e :
  walkPaths compare st paths root = Throw e → e = AssertionError.
Proof.
  revert root. induction paths as [|p paths IH]; intros root; simpl; [done|].
  destruct (walkKeys compare st p 1 root []) as [root1|e'] eqn:Hp; simpl.
  - apply IH.
  - intros [= <-]. by eapply walkKeys_throws.
Qed.

(** The rule for the loop over the paths: [J walked] holds when the
    paths [walked] are done. *)
Lemma walkPaths_rule (J : list (list string) → Node → Prop) paths :
  (∀ walked p rest root root',
      paths = walked ++ p :: rest →
      J walked root → walkKeys compare st p 1 root [] = Ok root' →
      J (walked ++ [p]) root') →
  ∀ todo walked root root',
    paths = walked ++ todo → J walked root →
    walkPaths compare st todo root = Ok root' → J paths root'.
Proof.
  intros Hstep. induction todo as [|p todo IH]; intros walked root root' Hp HJ; simpl.
  - intros [= <-]. rewrite app_nil_r in Hp. by subst.
  - destruct (walkKeys compare st p 1 root []) as [root1|] eqn:Hw; [|done]. simpl.
    apply (IH (walked ++ [p])); [by rewrite <- (assoc_L (++))|].
    by eapply Hstep.
Qed.

Lemma getTree_rule (J : list (list string) → Node → Prop) paths t :
  (∀ walked p rest root root',
      paths = walked ++ p :: rest →
      J walked root → walkKeys compare st p 1 root [] = Ok root' →
      J (walked ++ [p]) root') →
  J [] (rootOf st) →
  getTree compare st paths = Ok t → J paths t.
Proof. intros Hstep H0 Ht. by eapply (walkPaths_rule J paths Hstep paths []). Qed.

End WithComparator.
End BuildFacts.

(** ** getTree: missing keys and depths *)

Module GetTreeFacts.
Import TreeModel Catalog Tree Shape TreeFacts BuildFacts.

Section WithComparator.
Variable compare : Model → Model → Z.
Variable st : Catalog.
Implicit Types (t root : Node) (r current : ref).

Lemma getTree_throws paths e :
  getTree compare st paths = Throw e → e = AssertionError.
Proof. apply walkPaths_throws. Qed.

Lemma elem_of_keys_focus t r k :
  nodeKey (focus t r) = Some k → Some k ∈ keys t.
Proof.
  intros <-. rewrite keys_nodes. apply list_elem_of_fmap_2, focus_in_nodes.
Qed.

Lemma nodeKey_rootOf : nodeKey (rootOf st) = _key <$> (allNuggets st !! "adit").
Proof. done. Qed.

Lemma keys_rootOf : keys (rootOf st) = [_key <$> (allNuggets st !! "adit")].
Proof. done. Qed.

Lemma known_rootOf : keyed st → known st (rootOf st).
Proof.
  intros Hk k. rewrite keys_rootOf, list_elem_of_singleton.
  destruct (allNuggets st !! "adit") as [n|] eqn:Hn; [|done].
  simpl. intros [= ->]. rewrite (Hk _ _ Hn). by rewrite Hn.
Qed.

Lemma walkKeys_known p root root' :
  keyed st → known st root →
  walkKeys compare st p 1 root [] = Ok root' →
  known st root' ∧ ∀ k, k ∈ p → is_Some (allNuggets st !! k).
Proof.
  intros Hkeyed Hroot Hw.
  destruct (walkPath_rule compare st
    (fun passed root _ => known st root ∧ ∀ k, k ∈ passed → is_Some (allNuggets st !! k))
    p root root') as (current' & _ & H); try done.
  - intros passed k rest root0 current root1 current1 _ Hv [Hkn Hpassed] Hround.
    destruct Hround as [rel Hf Hv' Hk | nugget index Hfresh Hn m Hv' Hfoc].
    + split; [done|]. intros k' [Hk'| ->%list_elem_of_singleton]%elem_of_app; [auto|].
      eapply Hkn, elem_of_keys_focus, Hk.
    + split.
      * intros k'. rewrite keys_grow by done. subst m. unfold key. simpl.
        rewrite elem_of_cons. intros [[= ->]|Hk']; [|by apply Hkn].
        rewrite (Hkeyed _ _ Hn). by rewrite Hn.
      * intros k' [Hk'| ->%list_elem_of_singleton]%elem_of_app; [auto|].
        by rewrite Hn.
  - split; [done|]. by intros k ?%elem_of_nil.
Qed.

(** C5, as amended: when no key of the paths that is not stored is a name
    that plain objects inherit, a path with a key that the lookup does
    not hold makes the build throw, and what it throws is the
    AssertionError of [assert.ok]. *)
Theorem getTree_missing_key paths p k :
  keyed st → ownLookups st paths →
  p ∈ paths → k ∈ p → allNuggets st !! k = None →
  getTree compare st paths = Throw AssertionError.
Proof.
  intros Hkeyed _ Hp Hk Hnone.
  destruct (getTree compare st paths) as [t|e] eqn:Ht.
  - exfalso.
    assert (known st t ∧ ∀ q, q ∈ paths → ∀ k, k ∈ q → is_Some (allNuggets st !! k))
      as [_ Hall]; [|by destruct (Hall p Hp k Hk) as [? ?]; congruence].
    apply (getTree_rule compare st
             (fun walked root =>
                known st root ∧
                ∀ q, q ∈ walked → ∀ k, k ∈ q → is_Some (allNuggets st !! k))
             paths); try done.
    + intros walked q rest root root' _ [Hroot Hwalked] Hq.
      destruct (walkKeys_known q root root' Hkeyed Hroot Hq) as [Hroot' Hq'].
      split; [done|].
      intros q' [Hin| ->%list_elem_of_singleton]%elem_of_app; [by apply Hwalked|done].
    + split; [by apply known_rootOf|]. by intros q ?%elem_of_nil.
  - f_equal. by eapply getTree_throws.
Qed.

(** *** Depths *)

Lemma walkKeys_models p root root' :
  walkKeys compare st p 1 root [] = Ok root' →
  models root ⊆+ models root' ∧ model root' = model root.
Proof.
  intros Hw.
  destruct (walkPath_rule compare st
    (fun _ root1 _ => models root ⊆+ models root1 ∧ model root1 = model root)
    p root root') as (current' & _ & H); try done.
  intros passed k rest root0 current root1 current1 _ Hv [Hsub Hm] Hround.
  destruct Hround as [rel Hf Hv' Hk | nugget index Hfresh Hn m Hv' Hfoc]; [done|].
  split.
  - rewrite models_grow by done. by apply submseteq_cons.
  - by rewrite model_update.
Qed.



End WithComparator.

Lemma getTree_missing_key_witness :
  getTree Model_compare emptyMine [["adit"]; ["adit"; "ghost"]] = Throw AssertionError.
Proof.
  apply (getTree_missing_key Model_compare emptyMine _ ["adit"; "ghost"] "ghost").
  - apply CatalogFacts.init_keyed.
  - intros p k Hp Hk _. apply list_elem_of_In in Hp. simpl in Hp.
    destruct Hp as [<-|[<-|[]]]; apply list_elem_of_In in Hk; simpl in Hk.
    + by destruct Hk as [<-|[]].
    + by destruct Hk as [<-|[<-|[]]].
  - apply list_elem_of_In. simpl. tauto.
  - apply list_elem_of_In. simpl. tauto.
  - vm_compute. reflexivity.
Defined.

(** C5, as stated, fails on the mine with the adit alone and a path to a
    key that is not there: the error is the AssertionError of
    [assert.ok], not a ReferenceError. *)
Lemma missing_key_not_ReferenceError :
  allNuggets emptyMine !! "ghost" = None ∧
  getTree Model_compare emptyMine [["adit"]; ["adit"; "ghost"]] = Throw AssertionError ∧
  getTree Model_compare emptyMine [["adit"]; ["adit"; "ghost"]] ≠ Throw ReferenceError.
Proof. repeat split; vm_compute; (reflexivity || discriminate). Qed.



End GetTreeFacts.

(** ** getTree: one node per key *)

Module DedupFacts.
Import TreeModel Catalog Tree Shape TreeFacts BuildFacts GetTreeFacts.

Lemma elem_of_keys_child (t c : Node) k :
  c ∈ children t → k ∈ keys c → k ∈ keys t.
Proof.
  intros Hc Hk. rewrite keys_unfold. apply list_elem_of_further.
  apply list_elem_of_bind. eauto.
Qed.

(** Every key below the root is the lower end of an edge. *)
Lemma keys_edges (t : Node) k :
  k ∈ keys t → k = nodeKey t ∨ ∃ a, (a, k) ∈ edges t.
Proof.
  induction t as [m cs IH] using Node_ind'.
  rewrite keys_unfold. simpl. intros [->|Hk]%elem_of_cons; [by left|]. right.
  apply list_elem_of_bind in Hk as (c & Hk & Hc).
  rewrite Forall_forall in IH. destruct (IH c Hc Hk) as [->|[a Ha]].
  - exists (key m). rewrite edges_unfold. apply elem_of_app. left.
    apply list_elem_of_fmap. by exists c.
  - exists a. rewrite edges_unfold. apply elem_of_app. right.
    apply list_elem_of_bind. eauto.
Qed.

(** The upper end of an edge is a key of the tree. *)
Lemma edges_keys (t : Node) a k : (a, k) ∈ edges t → a ∈ keys t.
Proof.
  induction t as [m cs IH] using Node_ind'.
  rewrite edges_unfold, keys_unfold. simpl.
  intros [H|H]%elem_of_app.
  - apply list_elem_of_fmap in H as (c & [= -> ->] & _). apply list_elem_of_here.
  - apply list_elem_of_bind in H as (c & H & Hc).
    apply list_elem_of_further, list_elem_of_bind. exists c. split; [|done].
    rewrite Forall_forall in IH. by apply IH.
Qed.

Lemma NoDup_bind_same {A B} (h : A → list B) (l : list A) i j c c' x :
  NoDup (l ≫= h) → l !! i = Some c → l !! j = Some c' →
  x ∈ h c → x ∈ h c' → i = j.
Proof.
  revert i j. induction l as [|a l IH]; intros i j Hnd Hi Hj Hx Hx'; [done|].
  rewrite bind_cons in Hnd. apply NoDup_app in Hnd as (_ & Hdisj & Hnd).
  destruct i as [|i], j as [|j]; simpl in *; simplify_eq; try done.
  - exfalso. apply (Hdisj x Hx). apply list_elem_of_bind. exists c'.
    split; [done|]. by eapply list_elem_of_lookup_2.
  - exfalso. apply (Hdisj x Hx'). apply list_elem_of_bind. exists c.
    split; [done|]. by eapply list_elem_of_lookup_2.
  - f_equal. by eapply IH.
Qed.

Lemma NoDup_keys_child (t c : Node) :
  NoDup (keys t) → c ∈ children t → NoDup (keys c).
Proof.
  rewrite keys_unfold. intros [_ Hnd]%NoDup_cons Hc.
  apply list_elem_of_split in Hc as (l1 & l2 & Hcs). rewrite Hcs in Hnd.
  rewrite bind_app, bind_cons in Hnd.
  apply NoDup_app in Hnd as (_ & _ & Hnd). by apply NoDup_app in Hnd as (Hnd & _).
Qed.

(** With one node per key, an edge that starts at the key of a node ends
    at one of the children of that node. *)
Lemma edges_focus_child (t : Node) r k :
  NoDup (keys t) → valid t r →
  (nodeKey (focus t r), k) ∈ edges t →
  k ∈ childKeys (focus t r).
Proof.
  revert t. induction r as [|i r IH]; intros t Hnd Hv He; simpl in *.
  - rewrite edges_unfold in He. apply elem_of_app in He as [He|He].
    + apply list_elem_of_fmap in He as (c & [= ->] & Hc).
      by apply list_elem_of_fmap_2.
    + exfalso. apply list_elem_of_bind in He as (c & He & Hc).
      apply edges_keys in He. rewrite keys_unfold in Hnd.
      apply NoDup_cons in Hnd as [Hnot _]. apply Hnot.
      apply list_elem_of_bind. eauto.
  - destruct (children t !! i) as [c|] eqn:Hc; [|done].
    assert (nodeKey (focus c r) ∈ keys c) as Hfc.
    { rewrite keys_nodes. apply list_elem_of_fmap_2, focus_in_nodes. }
    pose proof (list_elem_of_lookup_2 _ _ _ Hc) as Hcin.
    rewrite edges_unfold in He. apply elem_of_app in He as [He|He].
    + exfalso. apply list_elem_of_fmap in He as (c' & [= Hkey ->] & Hc').
      rewrite keys_unfold in Hnd. apply NoDup_cons in Hnd as [Hnot _].
      apply Hnot. rewrite <- Hkey. apply list_elem_of_bind. eauto.
    + apply list_elem_of_bind in He as (c' & He & Hc').
      apply list_elem_of_lookup_1 in Hc' as [j Hj].
      assert (i = j) as <-.
      { rewrite keys_unfold in Hnd. apply NoDup_cons in Hnd as [_ Hnd].
        eapply (NoDup_bind_same keys); [done..|]. by eapply edges_keys. }
      simplify_eq. apply IH; [by eapply NoDup_keys_child | done | done].
Qed.

(** With one node per key, [all] finds one node for a key of the tree. *)
Lemma all_hasKey_one (t : Node) k :
  NoDup (keys t) → Some k ∈ keys t → length (all (hasKey k) t) = 1%nat.
Proof.
  rewrite keys_nodes. unfold all. induction (nodes t) as [|n l IH]; intros Hnd Hin.
  - by apply elem_of_nil in Hin.
  - rewrite fmap_cons in Hnd, Hin. apply NoDup_cons in Hnd as [Hnot Hnd].
    rewrite filter_cons. destruct (decide (hasKey k n = true)) as [Hk|Hk].
    + apply hasKey_true in Hk. rewrite Hk in Hnot. simpl. f_equal.
      rewrite (elem_of_nil_inv (filter _ l)); [done|].
      intros n' [Hk'%hasKey_true Hn']%list_elem_of_filter. apply Hnot.
      rewrite <- Hk'. by apply list_elem_of_fmap_2.
    + apply elem_of_cons in Hin as [Hin|Hin]; [|by apply IH].
      exfalso. apply Hk, hasKey_true. done.
Qed.

Lemma siblings_nodes (t : Node) :
  Forall NoDup (siblings t) ↔ ∀ n, n ∈ nodes t → NoDup (childKeys n).
Proof.
  unfold siblings, gather. rewrite Forall_forall. split.
  - intros H n Hn. apply H. apply list_elem_of_bind. exists n. split; [|done].
    apply list_elem_of_singleton. unfold childKeys.
    apply (list_fmap_compose model key).
  - intros H l Hl. apply list_elem_of_bind in Hl as (n & Hl & Hn).
    apply list_elem_of_singleton in Hl as ->.
    rewrite <- list_fmap_compose. by apply H.
Qed.

Lemma keys_models (t : Node) : keys t = key <$> models t.
Proof. rewrite keys_nodes, models_nodes. apply (list_fmap_compose model key). Qed.

Lemma last_take_S {A} (l : list A) j x : l !! j = Some x → last (take (S j) l) = Some x.
Proof.
  intros Hj. rewrite (take_S_r _ _ _ Hj). by rewrite last_snoc.
Qed.

Section WithComparator.
Variable compare : Model → Model → Z.
Variable st : Catalog.

(** Siblings have different keys, whatever the paths are. *)
Lemma walkKeys_siblings p root root' :
  keyed st → Forall NoDup (siblings root) →
  walkKeys compare st p 1 root [] = Ok root' →
  Forall NoDup (siblings root').
Proof.
  intros Hkeyed Hroot Hw.
  destruct (walkPath_rule compare st
    (fun _ root1 _ => Forall NoDup (siblings root1)) p root root')
    as (current' & _ & H); try done.
  intros passed k rest root0 current root1 current1 _ Hv Hs Hround.
  destruct Hround as [rel Hf Hv' Hk | nugget index Hfresh Hn m Hv' Hfoc]; [done|].
  apply siblings_grow; [done..|].
  subst m. unfold key. simpl. rewrite (Hkeyed _ _ Hn).
  intros (c & Hc & Hin)%list_elem_of_fmap.
  apply (Hfresh c); [|done].
  eapply elem_of_nodes_child; [done | apply elem_of_nodes_self].
Qed.

Lemma getTree_siblings paths t :
  keyed st → getTree compare st paths = Ok t →
  ∀ n, n ∈ nodes t → NoDup (childKeys n).
Proof.
  intros Hkeyed Ht. apply siblings_nodes.
  apply (getTree_rule compare st (fun _ root => Forall NoDup (siblings root)) paths);
    try done.
  - intros walked p rest root root' _ Hs Hw. by eapply walkKeys_siblings.
  - repeat constructor.
Qed.

Lemma walkKeys_mirrors paths p root root' :
  keyed st → singleRoute paths → fromAdit paths → p ∈ paths →
  mirrors paths root →
  walkKeys compare st p 1 root [] = Ok root' →
  mirrors paths root' ∧ ∀ k, k ∈ p → Some k ∈ keys root'.
Proof.
  intros Hkeyed Hroute Hadit Hp Hroot Hw.
  destruct (walkPath_rule compare st
    (fun passed root1 current =>
       mirrors paths root1 ∧
       (∀ k, k ∈ passed → Some k ∈ keys root1) ∧
       (∀ a, last passed = Some a → nodeKey (focus root1 current) = Some a) ∧
       (passed = [] → current = []))
    p root root') as (current' & _ & H & Hcov & _); try done.
  2: { split; [done|]. split; [by intros k ?%elem_of_nil|]. done. }
  intros passed k rest root0 current root1 current1 Hpk Hv
    (Hm & Hcov & Hlast & Hnil) Hround.
  assert (p !! length passed = Some k) as Hk.
  { rewrite Hpk. by rewrite list_lookup_middle. }
  destruct Hround as [rel Hf Hv' Hfk | nugget index Hfresh Hn m Hv' Hfoc].
  - (* the key is there already *)
    split; [done|]. split; [|split].
    + intros k' [Hk'| ->%list_elem_of_singleton]%elem_of_app; [auto|].
      by eapply elem_of_keys_focus.
    + intros a. rewrite last_snoc. by intros [= <-].
    + by intros ?%app_nil_r_inv%eq_sym%app_cons_not_nil
        || (intros Hcontra; by destruct passed).
  - (* the key is new in the subtree of the current node *)
    destruct Hm as (Hnd & Hrootkey & Hedges).
    assert (key m = Some k) as Hkm.
    { subst m. unfold key. simpl. by rewrite (Hkeyed _ _ Hn). }
    destruct (last passed) as [a|] eqn:Hla.
    2: { (* the first key of a path is the adit, which the root holds *)
      exfalso. apply last_None in Hla. subst passed. rewrite (Hnil eq_refl) in Hfresh.
      simpl in *. specialize (Hadit p Hp). rewrite Hpk in Hadit. simpl in Hadit.
      injection Hadit as ->. by apply (Hfresh root0 (elem_of_nodes_self root0)). }
    specialize (Hlast a eq_refl).
    apply last_Some in Hla as [passed' ->].
    assert (consecutive paths a k) as Hcons.
    { exists p, (length passed'). split; [done|].
      rewrite Hpk, <- !(assoc_L (++)). simpl. split.
      - by rewrite list_lookup_middle.
      - rewrite lookup_app_r by lia.
        by replace (S (length passed') - length passed')%nat with 1%nat by lia. }
    assert (Some k ∉ keys root0) as Hnew.
    { intros Hin. apply keys_edges in Hin as [Hin|[a0 Hin]].
      - (* [k] would be the adit, which stands at the head of [p] only *)
        rewrite Hrootkey in Hin. injection Hin as ->.
        pose proof (Hadit p Hp) as Hhd. rewrite head_lookup in Hhd.
        pose proof (Hroute p p _ _ _ Hp Hp Hk Hhd) as Ht.
        rewrite Hpk in Ht. rewrite take_app_length in Ht. simpl in Ht.
        by destruct passed'.
      - destruct (Hedges _ _ Hin) as (a' & k' & -> & [= <-] & q & j & Hq & Hqa & Hqk).
        pose proof (Hroute p q _ _ _ Hp Hq Hk Hqk) as Ht.
        rewrite Hpk in Ht. rewrite take_app_length in Ht.
        assert (a' = a) as ->.
        { apply (last_take_S _ _ _) in Hqa as Hl. rewrite <- Ht, last_snoc in Hl.
          by injection Hl. }
        rewrite <- Hlast in Hin.
        apply edges_focus_child in Hin; [|done..].
        apply list_elem_of_fmap in Hin as (c & Hc & Hcin).
        apply (Hfresh c); [|done].
        eapply elem_of_nodes_child; [done | apply elem_of_nodes_self]. }
    split; [split; [|split]|split; [|split]].
    + rewrite keys_grow by done. rewrite Hkm. by apply NoDup_cons.
    + unfold nodeKey. by rewrite model_update.
    + intros a0 k0. rewrite edges_grow by done. rewrite Hlast, Hkm.
      intros [[= -> ->]|Hin]%elem_of_cons; [by eexists _, _|by apply Hedges].
    + intros k'. rewrite keys_grow by done. rewrite Hkm.
      intros [Hk'| ->%list_elem_of_singleton]%elem_of_app.
      * apply list_elem_of_further. by apply Hcov.
      * apply list_elem_of_here.
    + intros a0. rewrite last_snoc. intros [= <-]. by rewrite Hfoc.
    + intros Hcontra. by destruct passed'.
Qed.

(** C3, as amended: with the nuggets stored under their own keys and no
    key of the paths that is not stored being a name that plain objects
    inherit, in every tree that [getTree] builds no node has two children
    with the same key; and when the adit is stored, the paths start at
    the adit and every key stands on one route, the tree has exactly one
    node for every key of a prefix that two paths share. *)
Theorem getTree_dedup paths t :
  keyed st → ownLookups st paths →
  getTree compare st paths = Ok t →
  (∀ n, n ∈ nodes t → NoDup (childKeys n)) ∧
  (is_Some (allNuggets st !! "adit") → fromAdit paths → singleRoute paths →
   ∀ p q shared k,
      p ∈ paths → q ∈ paths →
      shared `prefix_of` p → shared `prefix_of` q → k ∈ shared →
      length (all (hasKey k) t) = 1%nat).
Proof.
  intros Hkeyed _ Ht.
  split; [by eapply getTree_siblings|].
  intros [n0 Hn0] Hadit Hroute.
  assert (mirrors paths t ∧ ∀ p, p ∈ paths → ∀ k, k ∈ p → Some k ∈ keys t)
    as [(Hnd & _) Hcov].
  { apply (getTree_rule compare st
      (fun walked root =>
         mirrors paths root ∧ ∀ p, p ∈ walked → ∀ k, k ∈ p → Some k ∈ keys root)
      paths); try done.
    - intros walked p rest root root' Hp [Hm Hcov] Hw.
      assert (p ∈ paths) as Hin by (rewrite Hp; set_solver).
      destruct (walkKeys_mirrors paths p root root') as [Hm' Hp']; try done.
      split; [done|].
      intros p' [Hp''| ->%list_elem_of_singleton]%elem_of_app k Hk; [|by apply Hp'].
      apply (walkKeys_models compare st) in Hw as [Hsub _].
      rewrite keys_models. rewrite keys_models in Hcov.
      eapply elem_of_submseteq; [by eapply Hcov|]. by apply fmap_submseteq.
    - split; [|by intros p ?%elem_of_nil].
      assert (nodeKey (rootOf st) = Some "adit") as Hroot.
      { rewrite nodeKey_rootOf, Hn0. simpl. by rewrite (Hkeyed _ _ Hn0). }
      split; [|split; [done|]].
      + rewrite keys_unfold. simpl. apply NoDup_singleton.
      + intros a k. rewrite edges_unfold. simpl. by intros ?%elem_of_nil. }
  intros p q shared k Hp Hq [rest ->] _ Hk.
  apply all_hasKey_one; [done|]. apply (Hcov _ Hp). set_solver.
Qed.

End WithComparator.

Lemma singleRoute_sample :
  singleRoute [["adit"]; ["adit"; "a"]].
Proof.
  intros p q i j k Hp Hq Hi Hj.
  apply list_elem_of_In in Hp, Hq. simpl in Hp, Hq.
  destruct Hp as [<-|[<-|[]]], Hq as [<-|[<-|[]]];
    repeat (destruct i as [|i]; simpl in Hi; try done);
    repeat (destruct j as [|j]; simpl in Hj; try done);
    congruence.
Qed.

Lemma ownLookups_sample :
  ownLookups smallMine [["adit"]; ["adit"; "a"]].
Proof.
  intros p k Hp Hk _. apply list_elem_of_In in Hp. simpl in Hp.
  destruct Hp as [<-|[<-|[]]]; apply list_elem_of_In in Hk; simpl in Hk.
  - by destruct Hk as [<-|[]].
  - by destruct Hk as [<-|[<-|[]]].
Qed.

Lemma getTree_dedup_witness :
  ∃ t,
    getTree Model_compare smallMine [["adit"]; ["adit"; "a"]] = Ok t ∧
    (∀ n, n ∈ nodes t → NoDup (childKeys n)) ∧
    (∀ p q shared k,
        p ∈ [["adit"]; ["adit"; "a"]] → q ∈ [["adit"]; ["adit"; "a"]] →
        shared `prefix_of` p → shared `prefix_of` q → k ∈ shared →
        length (all (hasKey k) t) = 1%nat).
Proof.
  destruct (getTree Model_compare smallMine [["adit"]; ["adit"; "a"]]) as [t|] eqn:Ht;
    [|by vm_compute in Ht].
  exists t. split; [done|].
  destruct (getTree_dedup Model_compare smallMine [["adit"]; ["adit"; "a"]] t)
    as [Hsib Hone].
  - apply CatalogFacts.init_keyed.
  - apply ownLookups_sample.
  - exact Ht.
  - split; [exact Hsib|]. apply Hone.
    + vm_compute. eauto.
    + intros p Hp. apply list_elem_of_In in Hp. simpl in Hp.
      by destruct Hp as [<-|[<-|[]]].
    + apply singleRoute_sample.
Defined.

(** C3, as stated, fails on the diamond: the paths adit/b/x and
    adit/b/x/y share the prefix adit/b/x, and the tree has two nodes with
    the key x, one below a and one below b. *)
Lemma getTree_diamond_two_nodes :
  ∃ t,
    getTree Model_compare diamondMine diamondPaths = Ok t ∧
    ["adit"; "b"; "x"] ∈ diamondPaths ∧
    ["adit"; "b"; "x"; "y"] ∈ diamondPaths ∧
    ["adit"; "b"; "x"] `prefix_of` ["adit"; "b"; "x"] ∧
    ["adit"; "b"; "x"] `prefix_of` ["adit"; "b"; "x"; "y"] ∧
    "x" ∈ ["adit"; "b"; "x"] ∧
    length (all (hasKey "x") t) = 2%nat.
Proof.
  eexists. split; [vm_compute; reflexivity|].
  repeat split.
  - apply list_elem_of_In. simpl. tauto.
  - apply list_elem_of_In. simpl. tauto.
  - by exists [].
  - by exists ["y"].
  - apply list_elem_of_In. simpl. tauto.
Qed.

End DedupFacts.

(** ** The ordered extraction *)

Module OrderedFacts.
Import Str HeadingRe Headings TreeModel Catalog Tree Shape.
Import TreeFacts BuildFacts GetTreeFacts CatalogFacts.

Lemma rmapM_Forall2 {A B} (f : A → result B) l bs :
  rmapM f l = Ok bs → Forall2 (fun a b => f a = Ok b) l bs.
Proof.
  revert bs. induction l as [|a l IH]; intros bs; simpl.
  - intros [= <-]. constructor.
  - destruct (f a) as [b|] eqn:Ha; [|done]. simpl.
    destruct (rmapM f l) as [bs'|]; [|done]. simpl.
    intros [= <-]. constructor; [done | by apply IH].
Qed.

Section WithComparator.
Variable compare : Model → Model → Z.

(** What [getOrdered] returns is what the callback pushed, node by node,
    in the order of the walk. *)
Lemma getOrdered_by_node st paths out :
  getOrdered compare st paths = Ok out →
  ∃ t pushed,
    getTree compare st paths = Ok t ∧
    Forall2 (fun node chunks => orderedChunk st node = Ok chunks) (nodes t) pushed ∧
    out = concat pushed.
Proof.
  unfold getOrdered, orderedOf.
  destruct (getTree compare st paths) as [t|]; [|done]. simpl.
  destruct (rmapM (orderedChunk st) (nodes t)) as [pushed|] eqn:Hp; [|done]. simpl.
  intros [= <-]. exists t, pushed. repeat split. by apply rmapM_Forall2.
Qed.

Lemma pushed_Ok st (l : list Node) pushed node :
  Forall2 (fun node chunks => orderedChunk st node = Ok chunks) l pushed →
  node ∈ l → ∃ chunks, orderedChunk st node = Ok chunks.
Proof.
  intros HF Hin. apply list_elem_of_lookup_1 in Hin as [i Hi].
  destruct (Forall2_lookup_l _ _ _ _ _ HF Hi) as (chunks & _ & H). eauto.
Qed.

(** A node whose markdown is too short pushes nothing. *)
Lemma orderedChunk_short st node md min chunks :
  orderedChunk st node = Ok chunks →
  mdForExtract st (keyName (model node)) (depth (model node)) = Ok (Some md) →
  minLength st = Some min →
  Z.of_nat (String.length (strip md)) < min →
  chunks = [].
Proof.
  unfold orderedChunk. intros Hc Hmd Hmin Hlen.
  destruct (if negb (truthy (modelBody (model node))) && negb (hasChildren node)
            then idIsPassage (model node) else Ok false) as [[|]|]; simpl in Hc;
    [by injection Hc | | done].
  rewrite Hmd in Hc. simpl in Hc.
  unfold allowExtract in Hc. rewrite Hmin in Hc.
  destruct (Z.gtb_spec (Z.of_nat (String.length (strip md))) min); [lia|].
  rewrite andb_false_r in Hc. by injection Hc.
Qed.

(** C10: a node whose markdown from [#mdForExtract], with the heading
    lines stripped, is shorter than the minimum length pushes no chunk into
    what [getOrdered] returns, which is the chunks of the nodes in the
    order of the walk. *)
Theorem getOrdered_min_length st paths out :
  getOrdered compare st paths = Ok out →
  ∃ t pushed,
    getTree compare st paths = Ok t ∧
    Forall2 (fun node chunks => orderedChunk st node = Ok chunks) (nodes t) pushed ∧
    out = concat pushed ∧
    ∀ node md min,
      node ∈ nodes t →
      mdForExtract st (keyName (model node)) (depth (model node)) = Ok (Some md) →
      minLength st = Some min →
      Z.of_nat (String.length (strip md)) < min →
      orderedChunk st node = Ok [].
Proof.
  intros Hout. destruct (getOrdered_by_node st paths out Hout) as (t & pushed & Ht & HF & ->).
  exists t, pushed. repeat split; try done.
  intros node md min Hin Hmd Hmin Hlen.
  destruct (pushed_Ok st _ _ node HF Hin) as [chunks Hc].
  rewrite Hc. f_equal. by eapply orderedChunk_short.
Qed.

(** *** Grouped keys *)

Lemma walkKeys_genuine st p root root' :
  keyed st → genuine st root →
  walkKeys compare st p 1 root [] = Ok root' → genuine st root'.
Proof.
  intros Hkeyed Hroot Hw.
  destruct (walkPath_rule compare st (fun _ root1 _ => genuine st root1) p root root')
    as (current' & _ & H); try done.
  intros passed k rest root0 current root1 current1 _ Hv Hg Hround.
  destruct Hround as [rel Hf Hv' Hk | nugget index Hfresh Hn m Hv' Hfoc]; [done|].
  intros m' n. rewrite models_grow by done.
  intros [->|Hin]%elem_of_cons; [|by apply Hg].
  subst m. simpl. intros [= <-]. by rewrite (Hkeyed _ _ Hn).
Qed.

Lemma getTree_genuine st paths t :
  keyed st → getTree compare st paths = Ok t → genuine st t.
Proof.
  intros Hkeyed Ht.
  apply (getTree_rule compare st (fun _ root => genuine st root) paths); try done.
  - intros walked p rest root root' _ Hg Hw. by eapply walkKeys_genuine.
  - intros m n. rewrite models_unfold. unfold modelsBelow. simpl.
    intros ->%list_elem_of_singleton. simpl. intros Hn.
    by rewrite (Hkeyed _ _ Hn).
Qed.

(** A node of a nugget that is no passage and has no chunk pushes
    nothing. *)
Lemma orderedChunk_no_chunk st (node : Node) n :
  nug (model node) = Some n →
  allNuggets st !! _key n = Some n →
  seamNuggetChunks st !! _key n = None →
  isPassageId n = false →
  orderedChunk st node = Ok [].
Proof.
  intros Hnug Hn Hchunk Hpass. unfold orderedChunk, idIsPassage. rewrite Hnug, Hpass.
  assert ((if negb (truthy (modelBody (model node))) && negb (hasChildren node)
           then Ok false else Ok false) = Ok false :> result bool) as ->
    by (by destruct (_ && _)).
  simpl. unfold keyName, key. rewrite Hnug. simpl.
  unfold mdForExtract. rewrite Hn, Hchunk, Hpass. done.
Qed.

(** C7, as amended: after [populateChunks] every grouped key is in the
    lookup of written keys; and a grouped key whose nugget is no passage
    and no seam itself has no chunk of its own, so that no node with that
    key pushes a chunk into what [getOrdered] returns. *)
Theorem populateChunks_grouped st st' s seam grouped k :
  keyed st → seamNuggetChunks st = ∅ →
  populateChunks st = Ok st' →
  allNuggets st !! s = Some seam → nuggets seam = Some grouped → k ∈ grouped →
  k ∈ writtenNugs st ∧
  ((∀ n, allNuggets st !! k = Some n → isSeam n = false ∧ isPassageId n = false) →
   seamNuggetChunks st' !! k = None ∧
   ∀ paths out,
     getOrdered compare st' paths = Ok out →
     ∃ t pushed,
       getTree compare st' paths = Ok t ∧
       Forall2 (fun node chunks => orderedChunk st' node = Ok chunks) (nodes t) pushed ∧
       out = concat pushed ∧
       ∀ node, node ∈ nodes t → nodeKey node = Some k →
               orderedChunk st' node = Ok []).
Proof.
  intros Hkeyed Hfresh Hp Hs Hgrouped Hk.
  assert (k ∈ writtenNugs st) as Hw.
  { apply elem_of_writtenNugs. exists seam. split.
    - apply elem_of_seamsOf. split; [eauto|]. unfold isSeam. by rewrite Hgrouped.
    - right. by rewrite Hgrouped. }
  split; [done|]. intros Hplain.
  assert (seamNuggetChunks st' !! k = None) as Hnone.
  { rewrite (grouped_key_lookup st st' k) by
      (try done; intros n Hn; by destruct (Hplain n Hn)).
    by rewrite Hfresh, lookup_empty. }
  split; [done|]. intros paths out Hout.
  destruct (populateChunks_allNuggets st st' Hp) as [Hall _].
  assert (keyed st') as Hkeyed' by (unfold keyed; by rewrite Hall).
  destruct (getOrdered_by_node st' paths out Hout) as (t & pushed & Ht & HF & ->).
  exists t, pushed. repeat split; try done.
  intros node Hin Hkey.
  unfold nodeKey, key in Hkey. destruct (nug (model node)) as [n|] eqn:Hnug; [|done].
  injection Hkey as <-.
  pose proof (getTree_genuine st' paths t Hkeyed' Ht (model node) n) as Hn.
  rewrite models_nodes in Hn.
  specialize (Hn (list_elem_of_fmap_2 _ _ _ Hin) Hnug).
  apply (orderedChunk_no_chunk st' node n); try done.
  rewrite Hall in Hn. by destruct (Hplain n Hn).
Qed.

End WithComparator.

Lemma populateChunks_grouped_witness :
  ∃ st' t,
    populateChunks seamMine = Ok st' ∧
    "x" ∈ writtenNugs seamMine ∧
    seamNuggetChunks st' !! "x" = None ∧
    getTree Model_compare st' seamPaths = Ok t ∧
    ∀ node, node ∈ nodes t → nodeKey node = Some "x" →
            orderedChunk st' node = Ok [].
Proof.
  destruct (populateChunks seamMine) as [st'|] eqn:Hp; [|by vm_compute in Hp].
  destruct (populateChunks_grouped Model_compare seamMine st' "S"
              (seam "S" "Seam" (Some "S-body") ["x"; "y"]) ["x"; "y"] "x")
    as [Hw Hrest].
  - apply init_keyed.
  - reflexivity.
  - exact Hp.
  - vm_compute. reflexivity.
  - reflexivity.
  - apply list_elem_of_here.
  - destruct Hrest as [Hnone Hord].
    { intros n Hn. vm_compute in Hn. injection Hn as <-. by split. }
    destruct (getOrdered Model_compare st' seamPaths) as [out|] eqn:Hout.
    2: { vm_compute in Hp. injection Hp as <-. by vm_compute in Hout. }
    destruct (Hord _ _ Hout) as (t & pushed & Ht & _ & _ & Hx).
    exists st', t. split; [reflexivity|]. split; [exact Hw|].
    split; [exact Hnone|]. split; [exact Ht | exact Hx].
Defined.

(** C7, as stated, fails on the mine whose seam groups the passage [p]:
    [p] is in the lookup of written keys, and still the node of [p] pushes
    a chunk of its own, its body under a heading. *)
Lemma grouped_passage_pushes_chunk :
  ∃ st' t node,
    populateChunks groupedPassageMine = Ok st' ∧
    allNuggets groupedPassageMine !! "S" = Some (seam "S" "Seam" (Some "S-body") ["p"]) ∧
    "p" ∈ writtenNugs groupedPassageMine ∧
    getTree Model_compare st' groupedPassagePaths = Ok t ∧
    node ∈ nodes t ∧ nodeKey node = Some "p" ∧
    orderedChunk st' node = Ok ["## Pea" +:+ nl +:+ nl +:+ "P-body"] ∧
    ∃ first last,
      getOrdered Model_compare st' groupedPassagePaths
        = Ok [first; "## Pea" +:+ nl +:+ nl +:+ "P-body"; last].
Proof.
  destruct (populateChunks groupedPassageMine) as [st'|] eqn:Hp; [|by vm_compute in Hp].
  vm_compute in Hp. injection Hp as <-.
  eexists _, _, (mkNode (mkModel 2 [] (Some (passage "p" "Pea" (Some "P-body")))) []).
  split; [reflexivity|]. split; [vm_compute; reflexivity|].
  split; [by vm_compute|].
  split; [vm_compute; reflexivity|].
  split; [apply list_elem_of_In; vm_compute; tauto|].
  split; [reflexivity|].
  split; [vm_compute; reflexivity|].
  eexists _, _. vm_compute. reflexivity.
Qed.

Lemma getOrdered_min_length_witness :
  ∃ t,
    getOrdered Model_compare shortMine [["adit"]] = Ok [] ∧
    getTree Model_compare shortMine [["adit"]] = Ok t ∧
    mdForExtract shortMine "adit" 0 = Ok (Some ("# Home" +:+ nl +:+ "abc")) ∧
    String.length (strip ("# Home" +:+ nl +:+ "abc")) = 4%nat ∧
    minLength shortMine = Some 10 ∧
    orderedChunk shortMine t = Ok [].
Proof.
  destruct (getOrdered_min_length Model_compare shortMine [["adit"]] [])
    as (t & pushed & Ht & _ & _ & Hshort); [vm_compute; reflexivity|].
  exists t. split; [vm_compute; reflexivity|]. split; [done|].
  split; [vm_compute; reflexivity|]. split; [vm_compute; reflexivity|].
  split; [reflexivity|].
  apply (Hshort t ("# Home" +:+ nl +:+ "abc") 10).
  - apply elem_of_nodes_self.
  - vm_compute in Ht. injection Ht as <-. vm_compute. reflexivity.
  - reflexivity.
  - vm_compute. reflexivity.
Defined.

End OrderedFacts.

(** ** The paged extraction: pruning *)

Module PagedFacts.
Import Str HeadingRe Headings TreeModel Catalog Tree Shape.
Import TreeFacts.

Lemma rbind_Ok {A B} (a : A) (f : A → result B) : rbind (Ok a) f = f a.
Proof. reflexivity. Qed.

Lemma dropEmptyLeaves_unfold (t : Node) :
  dropEmptyLeaves t =
    mkNode (model t)
      (children t ≫= (fun c => if emptyLeaf c then [] else [dropEmptyLeaves c])).
Proof. by destruct t. Qed.

Lemma emptyLeaves_nil_inv (t : Node) n :
  emptyLeaves t = [] → n ∈ nodes t → emptyLeaf n = false.
Proof.
  unfold emptyLeaves, all. intros Hnil Hn.
  destruct (emptyLeaf n) eqn:He; [|done].
  by destruct (filter_nil_not_elem_of _ _ n Hnil He).
Qed.

(** Without an empty leaf the pruning step changes nothing. *)
Lemma dropEmptyLeaves_id (t : Node) :
  emptyLeaves t = [] → dropEmptyLeaves t = t.
Proof.
  intros Hnil. pose proof (emptyLeaves_nil_inv t) as Hall. specialize (Hall).
  assert (∀ n, n ∈ nodes t → emptyLeaf n = false) as H by (intros; by eapply Hall).
  clear Hnil Hall. induction t as [m cs IH] using Node_ind'.
  rewrite dropEmptyLeaves_unfold. simpl. f_equal.
  assert (∀ c, c ∈ cs → emptyLeaf c = false ∧ dropEmptyLeaves c = c) as Hcs.
  { intros c Hc. split.
    - apply H. eapply elem_of_nodes_child; [done | apply elem_of_nodes_self].
    - rewrite Forall_forall in IH. apply IH; [done|].
      intros n Hn. apply H. by eapply elem_of_nodes_child. }
  clear IH H. induction cs as [|c cs IHcs]; [done|].
  rewrite bind_cons. destruct (Hcs c (list_elem_of_here _ _)) as [-> ->].
  simpl. f_equal. apply IHcs. intros c' Hc'. apply Hcs. by apply list_elem_of_further.
Qed.

(** The loop ends on a tree without an empty leaf. *)
Lemma pruneLoop_Some fuel (t t' : Node) :
  pruneLoop fuel t = Some t' → emptyLeaves t' = [].
Proof.
  revert t. induction fuel as [|fuel IH]; intros t; simpl; [done|].
  destruct (length (emptyLeaves t) =? 0)%nat eqn:Hlen.
  - intros [= <-]. apply Nat.eqb_eq, length_zero_iff_nil in Hlen.
    by rewrite dropEmptyLeaves_id.
  - apply IH.
Qed.

(** C8: on the tree that the pruning loop of [getPaged] returns, the
    pruning step lists no empty leaf and leaves the tree as it is. *)
Theorem pruning_idempotent fuel (t t' : Node) :
  pruneLoop fuel t = Some t' →
  emptyLeaves t' = [] ∧ dropEmptyLeaves t' = t' ∧
  pruneLoop 1 t' = Some t'.
Proof.
  intros Hloop. pose proof (pruneLoop_Some fuel t t' Hloop) as Hnil.
  pose proof (dropEmptyLeaves_id t' Hnil) as Hid.
  repeat split; try done. simpl. by rewrite Hnil, Hid.
Qed.

(** *** Where the loop does not end *)

Lemma all_empty_drop (t : Node) :
  (∀ n, n ∈ nodes t → chunks (model n) = []) →
  ∀ n, n ∈ nodes (dropEmptyLeaves t) → chunks (model n) = [].
Proof.
  induction t as [m cs IH] using Node_ind'. intros H n.
  rewrite dropEmptyLeaves_unfold, nodes_unfold. simpl.
  intros [->|Hn]%elem_of_cons.
  - apply (H (mkNode m cs)), elem_of_nodes_self.
  - apply list_elem_of_bind in Hn as (c' & Hn & Hc').
    apply list_elem_of_bind in Hc' as (c & Hc' & Hc).
    destruct (emptyLeaf c); [by apply elem_of_nil in Hc'|].
    apply list_elem_of_singleton in Hc' as ->.
    rewrite Forall_forall in IH. apply (IH c Hc); [|done].
    intros n' Hn'. apply H. by eapply elem_of_nodes_child.
Qed.

(** A tree has a leaf. *)
Lemma has_leaf (t : Node) : ∃ n, n ∈ nodes t ∧ hasChildren n = false.
Proof.
  induction t as [m cs IH] using Node_ind'. destruct cs as [|c cs].
  - exists (mkNode m []). split; [apply elem_of_nodes_self | done].
  - apply Forall_cons in IH as [[n [Hn Hleaf]] _]. exists n. split; [|done].
    eapply elem_of_nodes_child; [apply list_elem_of_here | done].
Qed.

Lemma all_empty_has_emptyLeaf (t : Node) :
  (∀ n, n ∈ nodes t → chunks (model n) = []) → emptyLeaves t ≠ [].
Proof.
  intros H Hnil. destruct (has_leaf t) as (n & Hn & Hleaf).
  pose proof (emptyLeaves_nil_inv t n Hnil Hn) as He.
  unfold emptyLeaf in He. by rewrite Hleaf, (H n Hn) in He.
Qed.

(** When no node has a chunk, the loop strips the tree down to the root,
    which [drop] leaves in place, and finds the root again in every
    round. *)
Lemma pruneLoop_all_empty (t : Node) :
  (∀ n, n ∈ nodes t → chunks (model n) = []) →
  ∀ fuel, pruneLoop fuel t = None.
Proof.
  intros H fuel. revert t H. induction fuel as [|fuel IH]; intros t H; simpl; [done|].
  destruct (length (emptyLeaves t) =? 0)%nat eqn:Hlen.
  - apply Nat.eqb_eq, length_zero_iff_nil in Hlen.
    by destruct (all_empty_has_emptyLeaf t H).
  - apply IH. by apply all_empty_drop.
Qed.

(** C9, on the mine with the adit alone: for no number of rounds does
    the pruning loop of [getPaged] come to its end, called directly or
    through [getSeamNuggetTree]. The root is a leaf without chunks, [all]
    lists it in every round, and [drop] does not remove a root. *)
Theorem getPaged_pruning_diverges :
  ∀ fuel,
    getPaged Model_compare fuel emptyMine [["adit"]] = Ok None ∧
    getSeamNuggetTree Model_compare fuel emptyMine [["adit"]] = Ok (emptyMine, None).
Proof.
  intros fuel.
  assert (getPaged Model_compare fuel emptyMine [["adit"]] = Ok None) as Hpaged.
  { unfold getPaged.
    assert (getTree Model_compare emptyMine [["adit"]]
            = Ok (mkNode (mkModel 0 [] (Some (passage "adit" "Home" None))) [])) as ->
      by (vm_compute; reflexivity).
    rewrite rbind_Ok. unfold pagedOf.
    assert (generate emptyMine
              (mkNode (mkModel 0 [] (Some (passage "adit" "Home" None))) [])
            = Ok (mkNode (mkModel 0 [] (Some (passage "adit" "Home" None))) [])) as ->
      by (vm_compute; reflexivity).
    rewrite rbind_Ok. f_equal. apply pruneLoop_all_empty.
    intros n Hn. apply list_elem_of_In in Hn. vm_compute in Hn.
    by destruct Hn as [<-|[]]. }
  split; [done|]. unfold getSeamNuggetTree.
  destruct (populateChunks emptyMine) as [st'|] eqn:Hp; [|by vm_compute in Hp].
  rewrite rbind_Ok.
  assert (st' = emptyMine) as ->.
  { unfold populateChunks in Hp. simpl in Hp. injection Hp as <-.
    unfold emptyMine, init. simpl. f_equal. }
  by rewrite Hpaged.
Qed.

Lemma pruning_idempotent_witness :
  ∃ t',
    t' = mkNode (mkModel 0 ["text"] None) [mkNode (mkModel 2 ["more"] None) []] ∧
    pruneLoop 3 collatedTree = Some t' ∧
    emptyLeaves t' = [] ∧ dropEmptyLeaves t' = t' ∧ pruneLoop 1 t' = Some t'.
Proof.
  eexists. split; [reflexivity|]. split; [vm_compute; reflexivity|].
  apply (pruning_idempotent 3 collatedTree). vm_compute. reflexivity.
Defined.

End PagedFacts.

(** * Further properties *)

(** ** The heading expression and rewriteHeadings *)

Module HeadingMore.
Import Str HeadingRe Headings Levels Chars HeadingFacts CatalogFacts.

(** *** The scan *)

Lemma length_append (a b : string) :
  String.length (a +:+ b) = (String.length a + String.length b)%nat.
Proof. induction a as [|c a IH]; [done|]. rewrite append_cons. simpl. by rewrite IH. Qed.

Lemma text_shape s m :
  text s = Some m →
  p1 m = EmptyString ∧ blanks m = EmptyString ∧
  nonEmpty (p2 m) = true ∧ every (fun c => negb (isLineTerminator c)) (p2 m) = true ∧
  ∃ rest, s = p2 m +:+ rest.
Proof.
  unfold text. destruct (dots s) as [|c t] eqn:Hd; [done|]. intros [= <-]. simpl.
  assert (∀ s, every (fun c => negb (isLineTerminator c)) (dots s) = true ∧
               ∃ rest, s = dots s +:+ rest) as Hdots.
  { clear. induction s as [|c s [IH1 [rest IH2]]]; simpl.
    - split; [done|]. by exists EmptyString.
    - destruct (isLineTerminator c) eqn:Hc; simpl.
      + split; [done|]. by eexists.
      + rewrite Hc, IH1. split; [done|]. exists rest. rewrite append_cons. by f_equal. }
  destruct (Hdots s) as [H1 H2]. rewrite Hd in H1, H2. done.
Qed.

Lemma blanksText_shape s m :
  blanksText s = Some m →
  p1 m = EmptyString ∧ every isSpace (blanks m) = true ∧
  nonEmpty (p2 m) = true ∧ every (fun c => negb (isLineTerminator c)) (p2 m) = true ∧
  ∃ rest, s = blanks m +:+ p2 m +:+ rest.
Proof.
  revert m. induction s as [|c s IH]; intros m; simpl; [done|].
  assert (text (String c s) = Some m →
          p1 m = EmptyString ∧ every isSpace (blanks m) = true ∧
          nonEmpty (p2 m) = true ∧
          every (fun c => negb (isLineTerminator c)) (p2 m) = true ∧
          ∃ rest, String c s = blanks m +:+ p2 m +:+ rest) as Htext.
  { intros H. apply text_shape in H as (H1 & H2 & H3 & H4 & H5).
    rewrite H2. done. }
  destruct (isSpace c) eqn:Hc; [|done].
  destruct (blanksText s) as [m'|]; [|done].
  intros [= <-]. simpl. destruct (IH m' eq_refl) as (H1 & H2 & H3 & H4 & rest & H5).
  rewrite Hc, H2. repeat split; try done.
  exists rest. rewrite append_cons. by f_equal.
Qed.

Lemma blanks1Text_shape s m :
  blanks1Text s = Some m →
  p1 m = EmptyString ∧
  nonEmpty (blanks m) = true ∧ every isSpace (blanks m) = true ∧
  nonEmpty (p2 m) = true ∧ every (fun c => negb (isLineTerminator c)) (p2 m) = true ∧
  ∃ rest, s = blanks m +:+ p2 m +:+ rest.
Proof.
  destruct s as [|c s]; simpl; [done|].
  destruct (isSpace c) eqn:Hc; [|done].
  destruct (blanksText s) as [m'|] eqn:Hm; [|done].
  intros [= <-]. simpl. apply blanksText_shape in Hm as (H1 & H2 & H3 & H4 & rest & H5).
  rewrite Hc, H2. repeat split; try done.
  exists rest. rewrite append_cons. by f_equal.
Qed.

Lemma hashesBlanksText_shape s m :
  hashesBlanksText s = Some m →
  every isHash (p1 m) = true ∧
  nonEmpty (blanks m) = true ∧ every isSpace (blanks m) = true ∧
  nonEmpty (p2 m) = true ∧ every (fun c => negb (isLineTerminator c)) (p2 m) = true ∧
  ∃ rest, s = matched m +:+ rest.
Proof.
  revert m. induction s as [|c s IH]; intros m; simpl; [done|].
  assert (blanks1Text (String c s) = Some m →
          every isHash (p1 m) = true ∧
          nonEmpty (blanks m) = true ∧ every isSpace (blanks m) = true ∧
          nonEmpty (p2 m) = true ∧
          every (fun c => negb (isLineTerminator c)) (p2 m) = true ∧
          ∃ rest, String c s = matched m +:+ rest) as Hb.
  { intros H. apply blanks1Text_shape in H as (H1 & H2 & H3 & H4 & H5 & rest & H6).
    unfold matched. rewrite H1. repeat split; try done.
    exists rest. by rewrite append_empty_l, append_assoc. }
  destruct (isHash c) eqn:Hc; [|done].
  destruct (hashesBlanksText s) as [m'|]; [|done].
  intros [= <-]. simpl. destruct (IH m' eq_refl) as (H1 & H2 & H3 & H4 & H5 & rest & H6).
  rewrite Hc, H1. repeat split; try done.
  exists rest. rewrite H6 at 1. reflexivity.
Qed.

(** What a match of the heading expression looks like, and where it
    lies. *)
Lemma matchHere_shape s m :
  matchHere s = Some m →
  nonEmpty (p1 m) = true ∧ every isHash (p1 m) = true ∧
  nonEmpty (blanks m) = true ∧ every isSpace (blanks m) = true ∧
  nonEmpty (p2 m) = true ∧ every (fun c => negb (isLineTerminator c)) (p2 m) = true ∧
  ∃ rest, s = matched m +:+ rest.
Proof.
  destruct s as [|c s]; simpl; [done|].
  destruct (isHash c) eqn:Hc; [|done].
  destruct (hashesBlanksText s) as [m'|] eqn:Hm; [|done].
  intros [= <-]. simpl.
  apply hashesBlanksText_shape in Hm as (H1 & H2 & H3 & H4 & H5 & rest & H6).
  rewrite Hc, H1. repeat split; try done.
  exists rest. rewrite H6 at 1. reflexivity.
Qed.

Lemma scan_cons bol skip c s :
  scan bol skip (String c s) =
    match skip with
    | S k => scan (isLineTerminator c) k s
    | O =>
        match (if bol then matchHere (String c s) else None) with
        | Some m =>
            Heading m :: scan (isLineTerminator c) (String.length (matched m) - 1)%nat s
        | None => Plain c :: scan (isLineTerminator c) 0 s
        end
    end.
Proof. reflexivity. Qed.

Lemma scan_matches bol skip s m :
  Heading m ∈ scan bol skip s → wellFormedMatch m.
Proof.
  revert bol skip. induction s as [|c s IH]; intros bol skip.
  - by intros ?%elem_of_nil.
  - rewrite scan_cons. destruct skip as [|k]; [|apply IH].
    destruct (if bol then matchHere (String c s) else None) as [m'|] eqn:Hm.
    + intros [[= ->]|Hin]%elem_of_cons; [|by eapply IH].
      destruct bol; [|done].
      apply matchHere_shape in Hm as (?&?&?&?&?&?&_). by repeat split.
    + intros [[=]|Hin]%elem_of_cons. by eapply IH.
Qed.

(** X1: every match of the heading expression has at least one hash and
    nothing but hashes in its first group, at least one blank after it,
    and a second group that is not empty and holds no line terminator. *)
Theorem matchAll_shape s m : m ∈ matchAll s → wellFormedMatch m.
Proof.
  unfold matchAll, tokens. intros (t & Ht & Hm)%list_elem_of_omap.
  destruct t as [c|m']; [done|]. injection Hm as ->. by eapply scan_matches.
Qed.

Lemma dropStr_append (a b : string) : dropStr (String.length a) (a +:+ b) = b.
Proof. induction a as [|c a IH]; [done|]. by rewrite append_cons. Qed.

Lemma dropStr_all (s : string) n : (String.length s ≤ n)%nat → dropStr n s = EmptyString.
Proof.
  revert n. induction s as [|c s IH]; intros [|n] Hn; simpl in *; try done; try lia.
  apply IH. lia.
Qed.

Lemma replaceTokens_matched idx ts idx' :
  replaceTokens (fun _ m => matched m) idx ts
  = replaceTokens (fun _ m => matched m) idx' ts.
Proof.
  revert idx idx'. induction ts as [|[c|m] ts IH]; intros idx idx'; simpl; [done|..].
  - by rewrite (IH idx idx').
  - by rewrite (IH (S idx) (S idx')).
Qed.

(** Putting the tokens of the scan side by side gives the rest of the
    input after the characters the scan had to pass over. *)
Lemma scan_render bol skip s :
  replaceTokens (fun _ m => matched m) 0 (scan bol skip s) = dropStr skip s.
Proof.
  revert bol skip. induction s as [|c s IH]; intros bol skip.
  - by destruct skip.
  - rewrite scan_cons. destruct skip as [|k]; [|apply IH].
    destruct (if bol then matchHere (String c s) else None) as [m|] eqn:Hm.
    + destruct bol; [|done].
      apply matchHere_shape in Hm as (Hne & _ & _ & _ & _ & _ & rest & Heq).
      simpl. rewrite (replaceTokens_matched 1 _ 0), IH.
      destruct (matched m) as [|c' a] eqn:Ha.
      { unfold matched in Ha. by destruct (p1 m). }
      rewrite append_cons in Heq. injection Heq as -> ->.
      simpl. rewrite Nat.sub_0_r, dropStr_append. by rewrite append_cons.
    + simpl. by rewrite IH.
Qed.

(** X2: the scan loses nothing: replacing every match by itself gives
    the input back. *)
Theorem replace_by_match_id s : replace (fun _ m => matched m) s = s.
Proof. unfold replace, tokens. by rewrite scan_render. Qed.

Lemma replaceTokens_no_heading f idx ts :
  (∀ m, Heading m ∉ ts) →
  replaceTokens f idx ts = replaceTokens (fun _ m => matched m) 0 ts.
Proof.
  revert idx. induction ts as [|[c|m] ts IH]; intros idx Hno; simpl; [done|..].
  - rewrite (IH idx); [done|]. intros m Hin. apply (Hno m). by apply list_elem_of_further.
  - destruct (Hno m). apply list_elem_of_here.
Qed.

Lemma hasMatch_false_tokens s :
  hasMatch s = false → ∀ m, Heading m ∉ tokens s.
Proof.
  unfold hasMatch. destruct (matchAll s) as [|m0 l] eqn:Hm; [|done].
  intros _ m Hin. assert (m ∈ matchAll s) as Hin'.
  { unfold matchAll. apply list_elem_of_omap. by exists (Heading m). }
  rewrite Hm in Hin'. by apply elem_of_nil in Hin'.
Qed.

(** X3: a text without a heading is left as it is by every replacement
    over the heading expression; so [#allowExtract] measures it whole and
    [rewriteHeadings] returns it unchanged, at every depth. *)
Theorem no_heading_unchanged s :
  hasMatch s = false →
  (∀ f, replace f s = s) ∧ strip s = s ∧ ∀ depth, rewriteHeadings s depth = Ok s.
Proof.
  intros Hno. assert (∀ f, replace f s = s) as Hrep.
  { intros f. unfold replace.
    rewrite replaceTokens_no_heading by (by apply hasMatch_false_tokens).
    apply (scan_render true 0 s). }
  repeat split; [done | apply Hrep |]. intros depth.
  unfold rewriteHeadings. unfold hasMatch in Hno. by destruct (matchAll s).
Qed.

(** *** The levels *)

Lemma newLevels_cons depth first rest :
  newLevels depth (first :: rest)
  = stepLimit depth (placed depth first <$> (first :: rest)).
Proof.
  unfold newLevels, placed. simpl hd.
  by rewrite <- !list_fmap_compose.
Qed.

Lemma placed_first depth first : depth ≤ MAX → placed depth first first = depth.
Proof.
  intros Hd. unfold placed. replace (first - first + depth) with depth by lia.
  destruct (Z.gtb_spec depth MAX); [lia|].
  destruct (Z.ltb_spec depth depth); lia.
Qed.

Lemma newLevels_first depth first rest :
  depth ≤ MAX → ∃ ls, newLevels depth (first :: rest) = depth :: ls.
Proof.
  intros Hd. rewrite newLevels_cons, fmap_cons, placed_first by done. simpl.
  destruct (Z.gtb_spec depth (depth + 1)); [lia|]. by eexists.
Qed.

Lemma length_stepLimit last ls : length (stepLimit last ls) = length ls.
Proof. revert last. induction ls as [|l ls IH]; intros last; simpl; [done|]. by rewrite IH. Qed.

Lemma length_newLevels depth depths : length (newLevels depth depths) = length depths.
Proof. unfold newLevels. by rewrite length_stepLimit, !length_map. Qed.

Lemma rmapM_repeatHash_Ok ls :
  Forall (fun l => 0 ≤ l) ls → ∃ hs, rmapM repeatHash ls = Ok hs.
Proof.
  induction 1 as [|l ls Hl _ [hs IH]]; simpl; [by eexists|].
  unfold repeatHash at 1. destruct (Z.ltb_spec l 0); [lia|]. simpl.
  rewrite IH. simpl. by eexists.
Qed.

Lemma finalLevels_head md depth :
  hasMatch md = true → head (finalLevels md depth) = Some (clampDepth depth).
Proof.
  unfold finalLevels, hasMatch, headingDepths.
  destruct (matchAll md) as [|m ms]; [done|]. intros _. rewrite fmap_cons.
  destruct (newLevels_first (clampDepth depth) (Z.of_nat (String.length (p1 m)))
              ((fun m => Z.of_nat (String.length (p1 m))) <$> ms)
              (clampDepth_le depth)) as [ls ->]. done.
Qed.

(** X4: [rewriteHeadings] writes one level per heading; every level lies
    between the depth (cut at six) and six; and the first heading gets
    the depth itself. *)
Theorem finalLevels_bounded md depth :
  length (finalLevels md depth) = length (matchAll md) ∧
  Forall (fun l => clampDepth depth ≤ l ≤ MAX) (finalLevels md depth) ∧
  (hasMatch md = true → head (finalLevels md depth) = Some (clampDepth depth)).
Proof.
  split; [|split].
  - unfold finalLevels. rewrite length_newLevels. unfold headingDepths.
    by rewrite length_map.
  - apply newLevels_bounds.
  - apply finalLevels_head.
Qed.

Lemma rewriteHeadings_throw_iff md depth e :
  rewriteHeadings md depth = Throw e ↔
  e = RangeError ∧ depth < 0 ∧ hasMatch md = true.
Proof.
  unfold rewriteHeadings.
  pose proof (newLevels_bounds depth (headingDepths md)) as Hb.
  pose proof (finalLevels_head md depth) as Hfirst.
  unfold finalLevels, hasMatch in *.
  destruct (matchAll md) as [|m ms] eqn:Hm.
  { split; [done|]. by intros (_ & _ & ?). }
  specialize (Hfirst eq_refl).
  destruct (Z.ltb_spec depth 0) as [Hneg|Hpos].
  - assert (clampDepth depth = depth) as Hc.
    { unfold clampDepth, MAX. destruct (Z.gtb_spec depth 6); lia. }
    destruct (newLevels (clampDepth depth) (headingDepths md)) as [|l ls];
      [by simpl in Hfirst|].
    simpl in Hfirst. injection Hfirst as ->. rewrite Hc. simpl. unfold repeatHash at 1.
    destruct (Z.ltb_spec depth 0); [|lia]. simpl.
    split; [by intros [= <-] | by intros (-> & _ & _)].
  - destruct (rmapM_repeatHash_Ok (newLevels (clampDepth depth) (headingDepths md)))
      as [hs ->].
    + eapply Forall_impl; [exact Hb|]. simpl. intros l [Hl _].
      unfold clampDepth, MAX in Hl. destruct (Z.gtb_spec depth 6); lia.
    + simpl. split; [done|]. intros (_ & ? & _). lia.
Qed.

Lemma rewriteHeadings_throw_inv md depth e :
  rewriteHeadings md depth = Throw e →
  e = RangeError ∧ depth < 0 ∧ hasMatch md = true.
Proof. apply rewriteHeadings_throw_iff. Qed.

(** X5: [rewriteHeadings] throws exactly when the depth is negative and
    the text has a heading, and what it throws then is the RangeError of
    [repeat]; at a depth that is not negative it returns a text. *)
Theorem rewriteHeadings_throws md depth :
  (∀ e, rewriteHeadings md depth = Throw e ↔
        e = RangeError ∧ depth < 0 ∧ hasMatch md = true) ∧
  (0 ≤ depth → ∃ out, rewriteHeadings md depth = Ok out).
Proof.
  split; [intros e; apply rewriteHeadings_throw_iff|].
  intros Hd. destruct (rewriteHeadings md depth) as [out|e] eqn:Hr; [by eexists|].
  apply rewriteHeadings_throw_inv in Hr as (_ & ? & _). lia.
Qed.

(** *** Fragments that skip no level *)

Lemma placed_step depth first a b :
  b ≤ a + 1 → placed depth first b ≤ placed depth first a + 1.
Proof.
  intros H. unfold placed, MAX.
  repeat match goal with
         | |- context [?x >? ?y] => destruct (Z.gtb_spec x y)
         | |- context [?x <? ?y] => destruct (Z.ltb_spec x y)
         end; lia.
Qed.

Lemma steps_placed depth first last ls :
  steps last ls → steps (placed depth first last) (placed depth first <$> ls).
Proof.
  revert last. induction ls as [|l ls IH]; intros last; simpl; [done|].
  intros [Hl Hls]. split; [by apply placed_step | by apply IH].
Qed.

Lemma stepLimit_id last ls : steps last ls → stepLimit last ls = ls.
Proof.
  revert last. induction ls as [|l ls IH]; intros last; simpl; [done|].
  intros [Hl Hls]. destruct (Z.gtb_spec l (last + 1)); [lia|]. by rewrite IH.
Qed.

(** X6: when no heading of the text stands more than one level above the
    heading before it, the limiter changes nothing: every heading gets its
    level moved by the offset, cut at six and raised to the depth, and no
    level of the output stands more than one above the level before
    it. *)
Theorem finalLevels_noSkip md depth :
  noSkip (headingDepths md) →
  finalLevels md depth
    = placed (clampDepth depth) (hd 0 (headingDepths md)) <$> headingDepths md ∧
  noSkip (finalLevels md depth).
Proof.
  unfold finalLevels. destruct (headingDepths md) as [|first rest]; [done|].
  intros Hsteps. change (steps first rest) in Hsteps. rewrite newLevels_cons. simpl hd.
  pose proof (steps_placed (clampDepth depth) first first rest Hsteps) as Hp.
  pose proof (placed_first (clampDepth depth) first (clampDepth_le depth)) as Hf.
  assert (stepLimit (clampDepth depth) (placed (clampDepth depth) first <$> first :: rest)
          = placed (clampDepth depth) first <$> first :: rest) as ->.
  { apply stepLimit_id. rewrite fmap_cons. simpl. rewrite Hf in *. split; [lia|done]. }
  split; [done|]. rewrite fmap_cons. exact Hp.
Qed.

Lemma finalLevels_noSkip_witness :
  finalLevels ("## Intro" +:+ nl +:+ "text" +:+ nl +:+ "### Details" +:+ nl +:+ "more") 3
    = [3; 4] ∧
  noSkip (finalLevels
            ("## Intro" +:+ nl +:+ "text" +:+ nl +:+ "### Details" +:+ nl +:+ "more") 3).
Proof.
  destruct (finalLevels_noSkip
              ("## Intro" +:+ nl +:+ "text" +:+ nl +:+ "### Details" +:+ nl +:+ "more") 3)
    as [Heq Hno].
  - vm_compute. split; [discriminate | exact I].
  - split; [|exact Hno]. rewrite Heq. vm_compute. reflexivity.
Defined.

Lemma no_heading_unchanged_witness :
  strip "plain text" = "plain text" ∧ rewriteHeadings "plain text" 2 = Ok "plain text".
Proof.
  destruct (no_heading_unchanged "plain text") as (_ & Hs & Hr); [vm_compute; reflexivity|].
  split; [exact Hs | apply Hr].
Defined.

Lemma matchAll_shape_witness :
  wellFormedMatch (mkMatch "##" " " "Intro").
Proof.
  apply (matchAll_shape ("## Intro" +:+ nl +:+ "text")).
  vm_compute. apply list_elem_of_here.
Defined.


Lemma finalLevels_bounded_witness :
  head (finalLevels skippingFragment 2) = Some 2.
Proof.
  apply (finalLevels_bounded skippingFragment 2). vm_compute. reflexivity.
Defined.

Lemma rewriteHeadings_throws_witness :
  rewriteHeadings skippingFragment (-1) = Throw RangeError ∧
  ∃ out, rewriteHeadings skippingFragment 2 = Ok out.
Proof.
  split.
  - apply (rewriteHeadings_throws skippingFragment (-1)).
    split; [reflexivity|]. split; [lia | vm_compute; reflexivity].
  - apply (rewriteHeadings_throws skippingFragment 2). lia.
Defined.

End HeadingMore.

(** ** init, populateChunks, #mdForExtract and getChunk *)

Module CatalogMore.
Import Str HeadingRe Headings Chars Catalog CatalogFacts HeadingMore.

(** *** init *)

Lemma init_fold_keyed docs (m : gmap string Nugget) :
  (∀ k n, m !! k = Some n → _key n = k) →
  ∀ k n, foldl (fun all c => <[_key c := c]> all) m docs !! k = Some n → _key n = k.
Proof.
  revert m. induction docs as [|c docs IH]; intros m Hm k n; simpl; [apply Hm|].
  apply IH. intros k' n'. rewrite lookup_insert.
  case_decide; [intros [= <-]; done | apply Hm].
Qed.

Lemma init_fold_lookup docs (m : gmap string Nugget) k :
  foldl (fun all c => <[_key c := c]> all) m docs !! k
  = match last (filter (fun c => _key c = k) docs) with
    | Some c => Some c
    | None => m !! k
    end.
Proof.
  revert m. induction docs as [|c docs IH]; intros m; simpl; [done|].
  rewrite IH, filter_cons. destruct (decide (_key c = k)) as [<-|Hne].
  - destruct (filter _ docs) as [|c' l] eqn:Hf; simpl.
    + by rewrite lookup_insert_eq.
    + destruct (last (c' :: l)) eqn:Hl; [done|]. by apply last_None in Hl.
  - by rewrite lookup_insert_ne.
Qed.

(** X7: when no document has the key [__proto__], [init] leaves every
    nugget under its own key and marks the catalog initialised; of several
    documents with the same key the last one stays; nuggets under other
    keys stay as they were. *)
Theorem init_lookup docs st :
  keyed st → "__proto__" ∉ (_key <$> docs) →
  keyed (init docs st) ∧ initialised (init docs st) = true ∧
  ∀ k, allNuggets (init docs st) !! k
       = match last (filter (fun c => _key c = k) docs) with
         | Some c => Some c
         | None => allNuggets st !! k
         end.
Proof.
  intros Hk _. split; [|split; [done|]].
  - unfold keyed, init. simpl. by apply init_fold_keyed.
  - intros k. unfold init. simpl. apply init_fold_lookup.
Qed.

(** *** populateChunks *)

Lemma bodies_lookup l (m : gmap string string) n :
  NoDup (_key <$> l) → n ∈ l →
  foldl (fun chunks nugget =>
           if truthy (body nugget)
           then <[_key nugget := orEmpty (body nugget)]> chunks
           else chunks) m l !! _key n
  = if truthy (body n) then Some (orEmpty (body n)) else m !! _key n.
Proof.
  revert m. induction l as [|s l IH]; intros m Hnd Hin; simpl.
  - by apply elem_of_nil in Hin.
  - rewrite fmap_cons, NoDup_cons in Hnd. destruct Hnd as [Hnotin Hnd].
    apply elem_of_cons in Hin as [->|Hin].
    + rewrite bodies_lookup_other by done.
      destruct (truthy (body s)); [by rewrite lookup_insert_eq | done].
    + rewrite IH by done. destruct (truthy (body n)); [done|].
      destruct (truthy (body s)); [|done].
      rewrite lookup_insert_ne; [done|]. intros Heq. apply Hnotin.
      rewrite Heq. by apply list_elem_of_fmap_2.
Qed.

Lemma seam_keys_written st s : s ∈ seamsOf st → _key s ∈ writtenNugs st.
Proof. intros Hs. apply elem_of_writtenNugs. eauto. Qed.

(** The chunks after [populateChunks] under a key that is not
    written. *)
Lemma populateChunks_unwritten st st' k :
  keyed st → populateChunks st = Ok st' → k ∉ writtenNugs st →
  seamNuggetChunks st' !! k
  = match allNuggets st !! k with
    | Some n => if truthy (body n) then Some (orEmpty (body n))
                else seamNuggetChunks st !! k
    | None => seamNuggetChunks st !! k
    end.
Proof.
  intros Hkeyed Hp Hk. unfold populateChunks, initCheck in Hp.
  destruct (initialised st); [|done]. simpl in Hp. injection Hp as <-. simpl.
  set (rest := filter (fun n => _key n ∉ writtenNugs st) (values st)).
  assert (NoDup (_key <$> rest)) as Hnd.
  { apply (sublist_NoDup _ (_key <$> values st)); [by apply values_NoDup|].
    apply fmap_sublist, sublist_filter. }
  assert (foldl (fun chunks seam => <[_key seam := seamChunk st seam]> chunks)
            (seamNuggetChunks st) (seamsOf st) !! k = seamNuggetChunks st !! k) as H1.
  { apply writes_lookup_other. intros (s & -> & Hs)%list_elem_of_fmap.
    by apply Hk, seam_keys_written. }
  destruct (allNuggets st !! k) as [n|] eqn:Hn.
  - pose proof (Hkeyed _ _ Hn) as <-.
    rewrite (bodies_lookup rest _ n Hnd); [by rewrite H1|].
    apply list_elem_of_filter. split; [done|]. apply elem_of_values. eauto.
  - rewrite bodies_lookup_other; [done|]. intros (n & -> & Hin)%list_elem_of_fmap.
    apply list_elem_of_filter in Hin as [_ Hin]. apply elem_of_values in Hin as [k' Hk'].
    pose proof (Hkeyed _ _ Hk') as <-. congruence.
Qed.

(** X8: a nugget that no seam groups, that is no seam itself, whose key is
    none of the names that plain objects inherit and that has a body gets
    its own body as its chunk; without a body it gets none. *)
Theorem populateChunks_plain st st' k n :
  keyed st → Obj.ordinary k → populateChunks st = Ok st' →
  allNuggets st !! k = Some n → k ∉ writtenNugs st →
  seamNuggetChunks st' !! k
  = if truthy (body n) then body n else seamNuggetChunks st !! k.
Proof.
  intros Hkeyed _ Hp Hn Hk. rewrite (populateChunks_unwritten st st' k) by done.
  rewrite Hn. destruct (body n) as [[|c b]|]; done.
Qed.

Lemma seamChunk_same st st' s :
  allNuggets st' = allNuggets st → seamChunk st' s = seamChunk st s.
Proof.
  intros Hall. unfold seamChunk.
  assert (∀ acc k, getMd st' acc k = getMd st acc k) as Hmd
    by (intros; unfold getMd; by rewrite Hall).
  rewrite Hmd. generalize (getMd st EmptyString (_key s)).
  induction (default [] (nuggets s)) as [|k ks IH]; intros acc; simpl; [done|].
  by rewrite Hmd, IH.
Qed.

Lemma seamsOf_same st st' : allNuggets st' = allNuggets st → seamsOf st' = seamsOf st.
Proof. intros Hall. unfold seamsOf, values. by rewrite Hall. Qed.

Lemma writtenNugs_same st st' :
  allNuggets st' = allNuggets st → writtenNugs st' = writtenNugs st.
Proof. intros Hall. unfold writtenNugs, nugList. by rewrite (seamsOf_same st st'). Qed.

(** X9: running [populateChunks] again changes nothing. *)
Theorem populateChunks_twice st st' :
  keyed st → populateChunks st = Ok st' → populateChunks st' = Ok st'.
Proof.
  intros Hkeyed Hp.
  destruct (populateChunks_allNuggets st st' Hp) as [Hall Hmin].
  assert (initialised st' = true ∧ initialised st = true) as [Hi' Hi].
  { unfold populateChunks, initCheck in Hp. destruct (initialised st); [|done].
    simpl in Hp. by injection Hp as <-. }
  assert (keyed st') as Hkeyed' by (unfold keyed; by rewrite Hall).
  destruct (populateChunks st') as [st''|] eqn:Hp'.
  2: { unfold populateChunks, initCheck in Hp'. by rewrite Hi' in Hp'. }
  f_equal.
  destruct (populateChunks_allNuggets st' st'' Hp') as [Hall' Hmin'].
  assert (initialised st'' = true) as Hi''.
  { unfold populateChunks, initCheck in Hp'. rewrite Hi' in Hp'.
    simpl in Hp'. by injection Hp' as <-. }
  assert (seamNuggetChunks st'' = seamNuggetChunks st') as Hchunks.
  { apply map_eq. intros k.
    destruct (decide (k ∈ writtenNugs st)) as [Hw|Hw].
    - destruct (allNuggets st !! k) as [n|] eqn:Hn.
      + destruct (isSeam n) eqn:Hseam.
        * assert (n ∈ seamsOf st) as Hs by (apply elem_of_seamsOf; eauto).
          pose proof (Hkeyed _ _ Hn) as <-.
          rewrite (populateChunks_seam st st' n) by done.
          rewrite (populateChunks_seam st' st'' n); try done.
          -- f_equal. by apply seamChunk_same.
          -- by rewrite (seamsOf_same st st').
        * apply (grouped_key_lookup st' st'' k); try done.
          -- by rewrite (writtenNugs_same st st').
          -- intros n'. rewrite Hall, Hn. by intros [= <-].
      + apply (grouped_key_lookup st' st'' k); try done.
        * by rewrite (writtenNugs_same st st').
        * intros n'. by rewrite Hall, Hn.
    - rewrite (populateChunks_unwritten st' st'' k); try done.
      2: { by rewrite (writtenNugs_same st st'). }
      rewrite Hall. destruct (allNuggets st !! k) as [n|] eqn:Hn; [|done].
      destruct (truthy (body n)) eqn:Hb; [|done].
      rewrite (populateChunks_unwritten st st' k) by done. by rewrite Hn, Hb. }
  destruct st' as [m' a' c' i'], st'' as [m'' a'' c'' i'']. simpl in *. by subst.
Qed.

(** *** #mdForExtract and getChunk *)

Lemma heading_throws depth n e : heading depth n = Throw e → e = RangeError ∧ depth < 0.
Proof.
  unfold heading, repeatHash. destruct (Z.ltb_spec depth 0); simpl; [|done].
  by intros [= <-].
Qed.

Lemma mdForExtract_finish_throws depth nug (retMd : option string) e :
  (if truthy retMd
   then if negb (hasMatch (orEmpty retMd))
        then (h ←ᵣ heading depth nug; Ok (Some (h +:+ nl +:+ nl +:+ orEmpty retMd)))
        else Ok (Some (orEmpty retMd))
   else Ok None) = Throw e →
  e = RangeError ∧ depth < 0.
Proof.
  destruct (truthy retMd); [|done]. destruct (negb _); [|done].
  destruct (heading depth nug) as [h|e'] eqn:Hh; cbn [rbind]; [done|].
  intros [= <-]. by eapply heading_throws.
Qed.

Lemma mdForExtract_throw_inv st k depth e :
  mdForExtract st k depth = Throw e → e = RangeError ∧ depth < 0.
Proof.
  unfold mdForExtract.
  destruct (allNuggets st !! k) as [nug|]; [|done].
  destruct (seamNuggetChunks st !! k) as [chunk|]; cbn [rbind];
    [by apply mdForExtract_finish_throws|].
  destruct (isPassageId nug); cbn [rbind]; [|by apply mdForExtract_finish_throws].
  destruct (truthy (body nug)); cbn [rbind]; [by apply mdForExtract_finish_throws|].
  destruct (heading depth nug) as [h|e'] eqn:Hh; cbn [rbind].
  - destruct (truthy _); [|done]. destruct (negb _); done.
  - intros [= <-]. by eapply heading_throws.
Qed.

(** X10: for a key that is none of the names that plain objects inherit
    and a depth that a traversal can reach, [#mdForExtract] and [getChunk]
    throw nothing when the depth is not negative; what they throw at a
    negative depth is the RangeError of [repeat]; and both return
    [undefined] for a key that the lookup does not hold. *)
Theorem getChunk_throws st k depth :
  Obj.ordinary k → depth ≤ Shape.maxDepth →
  (∀ e, mdForExtract st k depth = Throw e → e = RangeError ∧ depth < 0) ∧
  (∀ e, getChunk st k depth = Throw e → e = RangeError ∧ depth < 0) ∧
  (allNuggets st !! k = None →
   mdForExtract st k depth = Ok None ∧ getChunk st k depth = Ok None).
Proof.
  intros _ _. split; [intros e; apply mdForExtract_throw_inv|]. split.
  - intros e. unfold getChunk.
    destruct (mdForExtract st k depth) as [md|e'] eqn:Hm; simpl.
    + destruct (truthy md); [|done].
      destruct (rewriteHeadings (orEmpty md) depth) as [r|e'] eqn:Hr; simpl; [done|].
      intros [= <-]. apply rewriteHeadings_throw_inv in Hr as (-> & ? & _). done.
    + intros [= <-]. by eapply mdForExtract_throw_inv.
  - intros Hnone. unfold getChunk, mdForExtract. by rewrite Hnone.
Qed.

Lemma hashesBlanksText_hash s :
  hashesBlanksText (String "#" s)
  = match hashesBlanksText s with
    | Some m => Some (mkMatch (String "#" (p1 m)) (blanks m) (p2 m))
    | None => blanks1Text (String "#" s)
    end.
Proof. reflexivity. Qed.

Lemma hashesBlanksText_blank s :
  hashesBlanksText (String " " s) = blanks1Text (String " " s).
Proof. reflexivity. Qed.

Lemma hashesBlanksText_hashes n t :
  is_Some (hashesBlanksText t) → is_Some (hashesBlanksText (hashes n +:+ t)).
Proof.
  intros Ht. induction n as [|n [m IH]]; [done|].
  change (hashes (S n) +:+ t) with (String "#" (hashes n +:+ t)).
  rewrite hashesBlanksText_hash, IH. by eexists.
Qed.

Lemma blanks1Text_blank_plain c l :
  isSpace c = false → is_Some (blanks1Text (String " " (String c l))).
Proof.
  intros Hc. assert (isLineTerminator c = false) as Hlt.
  { unfold isSpace, isLineTerminator in *.
    repeat (apply orb_false_iff in Hc as [Hc ?]). apply orb_false_iff. done. }
  assert (blanksText (String c l)
          = Some (mkMatch EmptyString EmptyString (String c (dots l)))) as Hb.
  { change (blanksText (String c l))
      with (if isSpace c
            then match blanksText l with
                 | Some m => Some (mkMatch (p1 m) (String c (blanks m)) (p2 m))
                 | None => text (String c l)
                 end
            else text (String c l)).
    rewrite Hc. unfold text.
    change (dots (String c l))
      with (if isLineTerminator c then EmptyString else String c (dots l)).
    by rewrite Hlt. }
  change (blanks1Text (String " " (String c l)))
    with (match blanksText (String c l) with
          | Some m => Some (mkMatch (p1 m) (String " " (blanks m)) (p2 m))
          | None => None
          end).
  rewrite Hb. by eexists.
Qed.

Lemma matchHere_hash s :
  matchHere (String "#" s)
  = match hashesBlanksText s with
    | Some m => Some (mkMatch (String "#" (p1 m)) (blanks m) (p2 m))
    | None => None
    end.
Proof. reflexivity. Qed.

(** A line of hashes, a blank and a label that starts with a character
    that is no blank is a heading, whatever follows. *)
Lemma heading_line_matches n l rest :
  startsPlain l = true →
  hasMatch (hashes (S n) +:+ " " +:+ l +:+ rest) = true.
Proof.
  intros Hl. destruct l as [|c l]; [done|]. simpl in Hl. apply negb_true_iff in Hl.
  destruct (hashesBlanksText_hashes n (String " " (String c (l +:+ rest)))) as [m Hm].
  { rewrite hashesBlanksText_blank. by apply blanks1Text_blank_plain. }
  unfold hasMatch, matchAll, tokens.
  change (hashes (S n) +:+ " " +:+ String c l +:+ rest)
    with (String "#" (hashes n +:+ String " " (String c (l +:+ rest)))).
  rewrite scan_cons, matchHere_hash, Hm. done.
Qed.

(** X11: at a depth of one or more, for a nugget whose label starts with a
    character that is no blank, the markdown that [#mdForExtract] returns
    has a heading, so that [rewriteHeadings] has a heading to put at the
    depth. *)
Theorem mdForExtract_has_heading st k depth nug md :
  allNuggets st !! k = Some nug → startsPlain (label nug) = true → 1 ≤ depth →
  mdForExtract st k depth = Ok (Some md) →
  hasMatch md = true.
Proof.
  intros Hn Hl Hd. unfold mdForExtract. rewrite Hn.
  assert (∃ n, heading depth nug = Ok (hashes (S n) +:+ " " +:+ label nug)) as [n Hh].
  { exists (Z.to_nat (depth - 1)). unfold heading, repeatHash.
    destruct (Z.ltb_spec depth 0); [lia|]. simpl.
    by replace (Z.to_nat depth) with (S (Z.to_nat (depth - 1))) by lia. }
  assert (∀ rest, hasMatch ((hashes (S n) +:+ " " +:+ label nug) +:+ rest) = true) as Hhead.
  { intros rest. rewrite !append_assoc. by apply heading_line_matches. }
  rewrite Hh.
  assert (∀ retMd : option string,
            (if truthy retMd
             then if negb (hasMatch (orEmpty retMd))
                  then (h ←ᵣ Ok (hashes (S n) +:+ " " +:+ label nug);
                        Ok (Some (h +:+ nl +:+ nl +:+ orEmpty retMd)))
                  else Ok (Some (orEmpty retMd))
             else Ok None) = Ok (Some md) → hasMatch md = true) as Hfinal.
  { intros retMd. destruct (truthy retMd); [|done].
    destruct (hasMatch (orEmpty retMd)) eqn:Hm; simpl.
    - by intros [= <-].
    - intros [= <-]. apply Hhead. }
  destruct (seamNuggetChunks st !! k) as [chunk|]; cbn [rbind];
    [exact (Hfinal (Some chunk))|].
  destruct (isPassageId nug); cbn [rbind]; [|exact (Hfinal None)].
  destruct (truthy (body nug)); cbn [rbind]; [exact (Hfinal (body nug))|].
  exact (Hfinal (Some ((hashes (S n) +:+ " " +:+ label nug) +:+ nl))).
Qed.

(** *** The entry points *)

Section WithComparator.
Variable compare : Model → Model → Z.

(** X12: before [init], [getSeamNuggetMarkdown] and [getSeamNuggetTree]
    throw the error of [initCheck], whatever the database returns. *)
Theorem entry_points_before_init st paths fuel :
  initialised st = false →
  Tree.getSeamNuggetMarkdown compare st paths = Throw IllegalState ∧
  Tree.getSeamNuggetTree compare fuel st paths = Throw IllegalState.
Proof.
  intros Hi. unfold Tree.getSeamNuggetMarkdown, Tree.getSeamNuggetTree.
  unfold populateChunks, initCheck. by rewrite Hi.
Qed.

End WithComparator.


Lemma init_lookup_witness :
  allNuggets (init [passage "a" "first" None; passage "a" "second" None]
                (new (Some 0))) !! "a"
  = Some (passage "a" "second" None).
Proof.
  apply (init_lookup [passage "a" "first" None; passage "a" "second" None]
           (new (Some 0))).
  - intros k n H. simpl in H. by rewrite lookup_empty in H.
  - intros Hin. apply list_elem_of_In in Hin. simpl in Hin.
    by destruct Hin as [?|[?|[]]].
Defined.

Lemma populateChunks_plain_witness :
  ∃ st',
    populateChunks smallMine = Ok st' ∧
    seamNuggetChunks st' !! "a" = Some "text of a".
Proof.
  destruct (populateChunks smallMine) as [st'|] eqn:Hp; [|by vm_compute in Hp].
  exists st'. split; [done|].
  apply (populateChunks_plain smallMine st' "a" (passage "a" "A" (Some "text of a"))).
  - apply init_keyed.
  - reflexivity.
  - exact Hp.
  - vm_compute. reflexivity.
  - intros Hin. vm_compute in Hin. inversion Hin.
Defined.

Lemma populateChunks_twice_witness :
  ∃ st', populateChunks seamMine = Ok st' ∧ populateChunks st' = Ok st'.
Proof.
  destruct (populateChunks seamMine) as [st'|] eqn:Hp; [|by vm_compute in Hp].
  exists st'. split; [done|].
  apply (populateChunks_twice seamMine st'); [apply init_keyed | exact Hp].
Defined.

Lemma getChunk_throws_witness :
  mdForExtract smallMine "gone" 3 = Ok None ∧ getChunk smallMine "gone" 3 = Ok None.
Proof.
  apply (getChunk_throws smallMine "gone" 3).
  - reflexivity.
  - unfold Shape.maxDepth. lia.
  - vm_compute. reflexivity.
Defined.

Lemma mdForExtract_has_heading_witness :
  ∃ md, mdForExtract emptyMine "adit" 1 = Ok (Some md) ∧ hasMatch md = true.
Proof.
  destruct (mdForExtract emptyMine "adit" 1) as [[md|]|] eqn:Hmd;
    try (by vm_compute in Hmd).
  exists md. split; [done|].
  apply (mdForExtract_has_heading emptyMine "adit" 1 (passage "adit" "Home" None) md).
  - vm_compute. reflexivity.
  - vm_compute. reflexivity.
  - lia.
  - exact Hmd.
Defined.

Lemma entry_points_before_init_witness :
  Tree.getSeamNuggetMarkdown Model_compare (new (Some 0)) [["adit"]]
    = Throw IllegalState ∧
  Tree.getSeamNuggetTree Model_compare 5 (new (Some 0)) [["adit"]]
    = Throw IllegalState.
Proof.
  apply (entry_points_before_init Model_compare (new (Some 0)) [["adit"]] 5).
  reflexivity.
Defined.

End CatalogMore.

(** ** getTree: when it succeeds, and the order of the children *)

Module GetTreeMore.
Import TreeModel Catalog Tree Shape Order TreeFacts BuildFacts GetTreeFacts.

Lemma splice_findInsertIndex compare (cs : list Node) (m : Model) :
  splice (findInsertIndex compare cs m) m (model <$> cs)
  = insertModel compare m (model <$> cs).
Proof.
  induction cs as [|c cs IH]; [done|]. rewrite fmap_cons. simpl.
  destruct (compare (model c) m >? 0); [done|].
  rewrite <- IH. reflexivity.
Qed.

Lemma inOrder_insertModel compare m ms :
  oneWay compare → inOrder compare ms → inOrder compare (insertModel compare m ms).
Proof.
  intros Hone. unfold inOrder. induction ms as [|a ms IH]; intros Hs; simpl.
  - repeat constructor.
  - destruct (Z.gtb_spec (compare a m) 0) as [Hgt|Hle].
    + constructor; [done|]. constructor. apply Hone. lia.
    + apply Sorted_inv in Hs as [Hs Hhd]. constructor; [by apply IH|].
      destruct ms as [|b ms]; simpl; [by constructor|].
      destruct (compare b m >? 0); constructor; [done|].
      by apply HdRel_inv in Hhd.
Qed.

(** Where [findInsertIndex] points, the new model stands in order. *)
Lemma inOrder_splice compare (cs : list Node) (m : Model) :
  oneWay compare → inOrder compare (model <$> cs) →
  inOrder compare (splice (findInsertIndex compare cs m) m (model <$> cs)).
Proof. intros. rewrite splice_findInsertIndex. by apply inOrder_insertModel. Qed.

Section WithComparator.
Variable compare : Model → Model → Z.
Variable st : Catalog.

Lemma visitKey_total k d root current :
  is_Some (allNuggets st !! k) → ∃ next, visitKey compare st k d root current = Ok next.
Proof.
  intros [n Hn]. unfold visitKey. destruct (first _ _); [by eexists|].
  rewrite Hn. by eexists.
Qed.

Lemma walkKeys_total ks d root current :
  (∀ k, k ∈ ks → is_Some (allNuggets st !! k)) →
  ∃ root', walkKeys compare st ks d root current = Ok root'.
Proof.
  revert d root current. induction ks as [|k ks IH]; intros d root current Hks; simpl.
  - by eexists.
  - destruct (visitKey_total k d root current) as [next ->];
      [apply Hks, list_elem_of_here|].
    simpl. apply IH. intros k' Hk'. by apply Hks, list_elem_of_further.
Qed.

Lemma walkPaths_total paths root :
  (∀ p, p ∈ paths → ∀ k, k ∈ p → is_Some (allNuggets st !! k)) →
  ∃ root', walkPaths compare st paths root = Ok root'.
Proof.
  revert root. induction paths as [|p paths IH]; intros root Hall; simpl.
  - by eexists.
  - destruct (walkKeys_total p 1 root []) as [root1 ->];
      [apply Hall, list_elem_of_here|].
    simpl. apply IH. intros p' Hp'. by apply Hall, list_elem_of_further.
Qed.

Lemma getTree_Ok_known paths t :
  keyed st → getTree compare st paths = Ok t →
  ∀ p, p ∈ paths → ∀ k, k ∈ p → is_Some (allNuggets st !! k).
Proof.
  intros Hkeyed Ht.
  assert (known st t ∧ ∀ q, q ∈ paths → ∀ k, k ∈ q → is_Some (allNuggets st !! k))
    as [_ Hall]; [|done].
  apply (getTree_rule compare st
           (fun walked root =>
              known st root ∧
              ∀ q, q ∈ walked → ∀ k, k ∈ q → is_Some (allNuggets st !! k))
           paths); try done.
  - intros walked q rest root root' _ [Hroot Hwalked] Hq.
    destruct (walkKeys_known compare st q root root' Hkeyed Hroot Hq) as [Hroot' Hq'].
    split; [done|].
    intros q' [Hin| ->%list_elem_of_singleton]%elem_of_app; [by apply Hwalked|done].
  - split; [by apply known_rootOf|]. by intros q ?%elem_of_nil.
Qed.

(** X13: when no key of the paths that is not stored is a name that plain
    objects inherit, [getTree] returns a tree exactly when the lookup
    holds every key of every path, and an AssertionError is all it
    throws. *)
Theorem getTree_succeeds paths :
  keyed st → ownLookups st paths →
  ((∃ t, getTree compare st paths = Ok t) ↔
   ∀ p, p ∈ paths → ∀ k, k ∈ p → is_Some (allNuggets st !! k)) ∧
  ∀ e, getTree compare st paths = Throw e → e = AssertionError.
Proof.
  intros Hkeyed _. split; [split|].
  - intros [t Ht]. by eapply getTree_Ok_known.
  - intros Hall. by apply walkPaths_total.
  - intros e. apply getTree_throws.
Qed.

(** *** The order of the children *)

Lemma families_nodes (t : Node) (P : list Model → Prop) :
  Forall P (families t) ↔ ∀ n, n ∈ nodes t → P (model <$> children n).
Proof.
  unfold families, gather. rewrite Forall_forall. split.
  - intros H n Hn. apply H. apply list_elem_of_bind. exists n. split; [|done].
    by apply list_elem_of_singleton.
  - intros H l Hl. apply list_elem_of_bind in Hl as (n & Hl & Hn).
    apply list_elem_of_singleton in Hl as ->. by apply H.
Qed.

Lemma families_grow m r (t : Node) :
  oneWay compare → valid t r →
  Forall (inOrder compare) (families t) →
  Forall (inOrder compare) (families (update (addChild compare (parse m)) r t)).
Proof.
  intros Hone Hv Hf.
  destruct (gather_update_addChild (fun _ below => [below]) compare m r t Hv)
    as (rest & H1 & H2).
  unfold families in *. rewrite H2. rewrite H1 in Hf. simpl in *.
  apply Forall_cons in Hf as [Hfocus Hrest].
  constructor; [constructor|]. constructor; [|done].
  by apply inOrder_splice.
Qed.

Lemma walkKeys_inOrder p root root' :
  oneWay compare → Forall (inOrder compare) (families root) →
  walkKeys compare st p 1 root [] = Ok root' →
  Forall (inOrder compare) (families root').
Proof.
  intros Hone Hroot Hw.
  destruct (walkPath_rule compare st
    (fun _ root1 _ => Forall (inOrder compare) (families root1)) p root root')
    as (current' & _ & H); try done.
  intros passed k rest root0 current root1 current1 _ Hv Hs Hround.
  destruct Hround as [rel Hf Hv' Hk | nugget index Hfresh Hn m Hv' Hfoc]; [done|].
  by apply families_grow.
Qed.

(** X14: when the comparator never puts two models each after the other,
    the children of every node of the tree stand in the order of the
    comparator: none is followed by one that belongs before it. *)
Theorem getTree_children_inOrder paths t :
  oneWay compare → getTree compare st paths = Ok t →
  ∀ n, n ∈ nodes t → inOrder compare (model <$> children n).
Proof.
  intros Hone Ht. apply families_nodes.
  apply (getTree_rule compare st (fun _ root => Forall (inOrder compare) (families root))
           paths); try done.
  - intros walked p rest root root' _ Hs Hw. by eapply walkKeys_inOrder.
  - repeat constructor.
Qed.

End WithComparator.

Lemma ofComparison_CompOpp c : ofComparison (CompOpp c) = - ofComparison c.
Proof. by destruct c. Qed.

Lemma Nugget_compare_antisym a b : Nugget_compare b a = - Nugget_compare a b.
Proof.
  unfold Nugget_compare.
  rewrite (String.compare_antisym (_key a) (_key b)), ofComparison_CompOpp.
  destruct (order a) as [x|], (order b) as [y|]; try done.
  - rewrite (Z.eqb_sym y x). destruct (x =? y); [lia|].
    destruct (Z.compare_spec x y), (Z.compare_spec y x); simpl; lia.
  - rewrite (String.compare_antisym (label a) (label b)).
    destruct (String.compare (label b) (label a)); simpl; lia.
Qed.

Lemma Model_compare_oneWay : oneWay Model_compare.
Proof.
  intros a b. unfold Model_compare.
  destruct (nug a) as [x|], (nug b) as [y|]; try lia.
  rewrite (Nugget_compare_antisym x y). lia.
Qed.


Lemma getTree_succeeds_witness :
  ∃ t, getTree Model_compare smallMine [["adit"]; ["adit"; "a"]] = Ok t.
Proof.
  apply (getTree_succeeds Model_compare smallMine [["adit"]; ["adit"; "a"]]).
  - apply CatalogFacts.init_keyed.
  - apply DedupFacts.ownLookups_sample.
  - intros p Hp k Hk. apply list_elem_of_In in Hp. simpl in Hp.
    destruct Hp as [<-|[<-|[]]]; apply list_elem_of_In in Hk; simpl in Hk.
    + destruct Hk as [<-|[]]. vm_compute. eauto.
    + destruct Hk as [<-|[<-|[]]]; vm_compute; eauto.
Defined.

Lemma getTree_children_inOrder_witness :
  ∃ t,
    getTree Model_compare seamMine seamPaths = Ok t ∧
    inOrder Model_compare (model <$> children t).
Proof.
  destruct (getTree Model_compare seamMine seamPaths) as [t|] eqn:Ht;
    [|by vm_compute in Ht].
  exists t. split; [done|].
  apply (getTree_children_inOrder Model_compare seamMine seamPaths t).
  - apply Model_compare_oneWay.
  - exact Ht.
  - apply elem_of_nodes_self.
Defined.

End GetTreeMore.

(** ** getTree: walking a path again *)

Module RewalkFacts.
Import TreeModel Catalog Tree Shape TreeFacts BuildFacts GetTreeFacts DedupFacts GetTreeMore.

Section WithComparator.
Variable compare : Model → Model → Z.
Variable st : Catalog.

(** In a tree that mirrors the paths, a key that has no node below the
    current node has no node at all. *)
Lemma mirrors_fresh paths p passed k rest (root : Node) current :
  singleRoute paths → fromAdit paths → p ∈ paths →
  p = passed ++ k :: rest →
  mirrors paths root → valid root current →
  (∀ a, last passed = Some a → nodeKey (focus root current) = Some a) →
  (passed = [] → current = []) →
  (∀ n, n ∈ nodes (focus root current) → nodeKey n ≠ Some k) →
  Some k ∉ keys root.
Proof.
  intros Hroute Hadit Hp Hpk (Hnd & Hrootkey & Hedges) Hv Hlast Hnil Hfresh.
  assert (p !! length passed = Some k) as Hk.
  { rewrite Hpk. by rewrite list_lookup_middle. }
  destruct (last passed) as [a|] eqn:Hla.
  2: { exfalso. apply last_None in Hla. subst passed. rewrite (Hnil eq_refl) in Hfresh.
       simpl in *. specialize (Hadit p Hp). rewrite Hpk in Hadit. simpl in Hadit.
       injection Hadit as ->. by apply (Hfresh root (elem_of_nodes_self root)). }
  specialize (Hlast a eq_refl).
  apply last_Some in Hla as [passed' ->].
  intros Hin. apply keys_edges in Hin as [Hin|[a0 Hin]].
  - rewrite Hrootkey in Hin. injection Hin as ->.
    pose proof (Hadit p Hp) as Hhd. rewrite head_lookup in Hhd.
    pose proof (Hroute p p _ _ _ Hp Hp Hk Hhd) as Ht.
    rewrite Hpk in Ht. rewrite take_app_length in Ht. simpl in Ht.
    by destruct passed'.
  - destruct (Hedges _ _ Hin) as (a' & k' & -> & [= <-] & q & j & Hq & Hqa & Hqk).
    pose proof (Hroute p q _ _ _ Hp Hq Hk Hqk) as Ht.
    rewrite Hpk in Ht. rewrite take_app_length in Ht.
    assert (a' = a) as ->.
    { apply (last_take_S _ _ _) in Hqa as Hl. rewrite <- Ht, last_snoc in Hl.
      by injection Hl. }
    rewrite <- Hlast in Hin.
    apply edges_focus_child in Hin; [|done..].
    apply list_elem_of_fmap in Hin as (c & Hc & Hcin).
    apply (Hfresh c); [|done].
    eapply elem_of_nodes_child; [done | apply elem_of_nodes_self].
Qed.

Lemma walkKeys_again paths p (root root' : Node) :
  singleRoute paths → fromAdit paths → p ∈ paths →
  mirrors paths root → (∀ k, k ∈ p → Some k ∈ keys root) →
  walkKeys compare st p 1 root [] = Ok root' → root' = root.
Proof.
  intros Hroute Hadit Hp Hm Hcov Hw.
  destruct (walkPath_rule compare st
    (fun passed root1 current =>
       root1 = root ∧
       (∀ a, last passed = Some a → nodeKey (focus root1 current) = Some a) ∧
       (passed = [] → current = []))
    p root root') as (current' & _ & H & _); try done.
  intros passed k rest root0 current root1 current1 Hpk Hv (-> & Hlast & Hnil) Hround.
  destruct Hround as [rel Hf Hv' Hfk | nugget index Hfresh Hn m Hv' Hfoc].
  - split; [done|]. split.
    + intros a. rewrite last_snoc. by intros [= <-].
    + intros Hcontra. by destruct passed.
  - exfalso. eapply (mirrors_fresh paths p passed k rest root current); try done.
    apply Hcov. rewrite Hpk. apply elem_of_app. right. apply list_elem_of_here.
Qed.

Lemma getTree_mirrors paths t :
  keyed st → is_Some (allNuggets st !! "adit") →
  fromAdit paths → singleRoute paths →
  getTree compare st paths = Ok t →
  mirrors paths t ∧ ∀ p, p ∈ paths → ∀ k, k ∈ p → Some k ∈ keys t.
Proof.
  intros Hkeyed [n0 Hn0] Hadit Hroute Ht.
  apply (getTree_rule compare st
    (fun walked root =>
       mirrors paths root ∧ ∀ p, p ∈ walked → ∀ k, k ∈ p → Some k ∈ keys root)
    paths); try done.
  - intros walked p rest root root' Hp [Hm Hcov] Hw.
    assert (p ∈ paths) as Hin.
    { rewrite Hp. apply elem_of_app. right. apply list_elem_of_here. }
    destruct (walkKeys_mirrors compare st paths p root root') as [Hm' Hp']; try done.
    split; [done|].
    intros p' [Hp''| ->%list_elem_of_singleton]%elem_of_app k Hk; [|by apply Hp'].
    apply (walkKeys_models compare st) in Hw as [Hsub _].
    rewrite keys_models. rewrite keys_models in Hcov.
    eapply elem_of_submseteq; [by eapply Hcov|]. by apply fmap_submseteq.
  - split; [|by intros p ?%elem_of_nil].
    assert (nodeKey (rootOf st) = Some "adit") as Hroot.
    { rewrite nodeKey_rootOf, Hn0. simpl. by rewrite (Hkeyed _ _ Hn0). }
    split; [|split; [done|]].
    + rewrite keys_unfold. simpl. apply NoDup_singleton.
    + intros a k. rewrite edges_unfold. simpl. by intros ?%elem_of_nil.
Qed.

Lemma walkPaths_app paths1 paths2 (root : Node) :
  walkPaths compare st (paths1 ++ paths2) root
  = (root' ←ᵣ walkPaths compare st paths1 root; walkPaths compare st paths2 root').
Proof.
  revert root. induction paths1 as [|p paths1 IH]; intros root; simpl; [done|].
  destruct (walkKeys compare st p 1 root []); simpl; [apply IH | done].
Qed.

(** X15: when every key stands on one route, the paths start at the adit
    and no key of the paths that is not stored is a name that plain
    objects inherit, walking one of the paths again changes nothing in the
    tree, and the tree of the paths with that path listed once more at the
    end is the same tree. *)
Theorem getTree_path_again paths t p :
  keyed st → ownLookups st paths → is_Some (allNuggets st !! "adit") →
  fromAdit paths → singleRoute paths →
  getTree compare st paths = Ok t → p ∈ paths →
  walkKeys compare st p 1 t [] = Ok t ∧
  getTree compare st (paths ++ [p]) = Ok t.
Proof.
  intros Hkeyed _ Hroot Hadit Hroute Ht Hp.
  destruct (getTree_mirrors paths t) as [Hm Hcov]; try done.
  assert (walkKeys compare st p 1 t [] = Ok t) as Hw.
  { destruct (walkKeys_total compare st p 1 t []) as [t' Hw].
    - intros k Hk. by eapply (getTree_Ok_known compare st paths t).
    - rewrite Hw. f_equal. eapply walkKeys_again; try done. by apply Hcov. }
  split; [done|]. unfold getTree in *. rewrite walkPaths_app, Ht. simpl.
  by rewrite Hw.
Qed.

End WithComparator.


Lemma getTree_path_again_witness :
  ∃ t,
    getTree Model_compare smallMine [["adit"]; ["adit"; "a"]] = Ok t ∧
    walkKeys Model_compare smallMine ["adit"; "a"] 1 t [] = Ok t ∧
    getTree Model_compare smallMine ([["adit"]; ["adit"; "a"]] ++ [["adit"; "a"]]) = Ok t.
Proof.
  destruct (getTree Model_compare smallMine [["adit"]; ["adit"; "a"]]) as [t|] eqn:Ht;
    [|by vm_compute in Ht].
  exists t. split; [done|].
  apply (getTree_path_again Model_compare smallMine [["adit"]; ["adit"; "a"]] t
           ["adit"; "a"]).
  - apply CatalogFacts.init_keyed.
  - apply DedupFacts.ownLookups_sample.
  - vm_compute. eauto.
  - intros p Hp. apply list_elem_of_In in Hp. simpl in Hp.
    by destruct Hp as [<-|[<-|[]]].
  - apply DedupFacts.singleRoute_sample.
  - exact Ht.
  - apply list_elem_of_further, list_elem_of_here.
Defined.

End RewalkFacts.

(** ** getOrdered: what it throws and what it returns *)

Module OrderedMore.
Import Str HeadingRe Headings TreeModel Catalog Tree Shape Paging.
Import TreeFacts BuildFacts GetTreeFacts OrderedFacts HeadingMore CatalogMore.

Section WithComparator.
Variable compare : Model → Model → Z.
Variable st : Catalog.

Lemma sound_models (t : Node) :
  sound t ↔ ∀ m, m ∈ models t → is_Some (nug m) ∧ 0 ≤ depth m.
Proof.
  unfold sound. rewrite models_nodes. split.
  - intros H m (n & -> & Hn)%list_elem_of_fmap. by apply H.
  - intros H n Hn. apply H. by apply list_elem_of_fmap_2.
Qed.

Lemma blank_models (t : Node) : blank t ↔ ∀ m, m ∈ models t → chunks m = [].
Proof.
  unfold blank. rewrite models_nodes. split.
  - intros H m (n & -> & Hn)%list_elem_of_fmap. by apply H.
  - intros H n Hn. apply H. by apply list_elem_of_fmap_2.
Qed.

(** The trees of [getTree] carry a nugget in every node when the lookup
    holds the adit; their depths are not negative and their nodes hold no
    chunk. *)
Lemma getTree_sound paths t :
  is_Some (allNuggets st !! "adit") →
  getTree compare st paths = Ok t → sound t ∧ blank t.
Proof.
  intros Hadit Ht. rewrite sound_models, blank_models.
  assert (∀ m, m ∈ models t → (is_Some (nug m) ∧ 0 ≤ depth m) ∧ chunks m = []) as H;
    [|split; intros m Hm; by destruct (H m Hm)].
  apply (getTree_rule compare st
    (fun _ root => ∀ m, m ∈ models root →
                        (is_Some (nug m) ∧ 0 ≤ depth m) ∧ chunks m = []) paths);
    try done.
  - intros walked p rest root root' _ Hroot Hw.
    destruct (walkPath_rule compare st
      (fun _ root1 _ => ∀ m, m ∈ models root1 →
                             (is_Some (nug m) ∧ 0 ≤ depth m) ∧ chunks m = [])
      p root root') as (current' & _ & H); try done.
    intros passed k rest' root0 current root1 current1 _ Hv Hs Hround.
    destruct Hround as [rel Hf Hv' Hk | nugget index Hfresh Hn m Hv' Hfoc]; [done|].
    intros m'. rewrite models_grow by done.
    intros [->|Hin]%elem_of_cons; [|by apply Hs].
    subst m. simpl. repeat split; [by eexists | lia].
  - intros m. rewrite models_unfold. unfold modelsBelow. simpl.
    intros ->%list_elem_of_singleton. simpl. repeat split; [done | lia].
Qed.

Lemma rewriteHeadings_nonneg md depth :
  0 ≤ depth → ∃ out, rewriteHeadings md depth = Ok out.
Proof.
  intros Hd. destruct (rewriteHeadings md depth) as [out|e] eqn:Hr; [by eexists|].
  apply rewriteHeadings_throw_inv in Hr as (_ & ? & _). lia.
Qed.

Lemma orderedChunk_sound (node : Node) :
  is_Some (nug (model node)) → 0 ≤ depth (model node) →
  ∃ pushed, orderedChunk st node = Ok pushed.
Proof.
  intros [n Hn] Hd. unfold orderedChunk, idIsPassage. rewrite Hn.
  destruct (if negb (truthy (modelBody (model node))) && negb (hasChildren node)
            then Ok (isPassageId n) else Ok false) as [[|]|] eqn:Hskip;
    cbn [rbind]; [by eexists | | by destruct (_ && _)].
  destruct (mdForExtract st (keyName (model node)) (depth (model node)))
    as [md|e] eqn:Hmd; cbn [rbind].
  2: { apply mdForExtract_throw_inv in Hmd as [_ ?]. lia. }
  destruct (truthy md && allowExtract st (orEmpty md)); [|by eexists].
  destruct (rewriteHeadings_nonneg (orEmpty md) (depth (model node)) Hd) as [out ->].
  by eexists.
Qed.

Lemma rmapM_total {A B} (f : A → result B) l :
  (∀ a, a ∈ l → ∃ b, f a = Ok b) → ∃ bs, rmapM f l = Ok bs.
Proof.
  induction l as [|a l IH]; intros H; simpl; [by eexists|].
  destruct (H a (list_elem_of_here _ _)) as [b ->]. simpl.
  destruct IH as [bs ->]; [|by eexists].
  intros a' Ha'. by apply H, list_elem_of_further.
Qed.

(** X16: when the nuggets are stored under their own keys, the lookup
    holds the adit, no key of the paths is a name that plain objects
    inherit and no path is longer than a traversal makes it, all that
    [getOrdered] throws is the AssertionError of [getTree]; once the tree
    is built, the walk of [getOrdered] throws nothing. *)
Theorem getOrdered_throws paths e :
  keyed st → is_Some (allNuggets st !! "adit") →
  ordinaryKeys paths → traversed paths →
  getOrdered compare st paths = Throw e → e = AssertionError.
Proof.
  intros _ Hadit _ _. unfold getOrdered.
  destruct (getTree compare st paths) as [t|e'] eqn:Ht; cbn [rbind].
  - destruct (getTree_sound paths t Hadit Ht) as [Hs _]. unfold orderedOf.
    destruct (rmapM_total (orderedChunk st) (nodes t)) as [bs ->]; [|done].
    intros node Hn. destruct (Hs node Hn). by apply orderedChunk_sound.
  - intros [= <-]. by eapply getTree_throws.
Qed.

(** What a node pushes is nothing or one chunk; the chunk is the
    markdown of the node, longer than the minimum once the headings are
    stripped, with its headings rewritten at the depth of the node. *)
Lemma orderedChunk_inv (node : Node) pushed :
  orderedChunk st node = Ok pushed →
  pushed = [] ∨
  ∃ md min chunk,
    pushed = [chunk] ∧
    mdForExtract st (keyName (model node)) (depth (model node)) = Ok (Some md) ∧
    minLength st = Some min ∧ min < Z.of_nat (String.length (strip md)) ∧
    rewriteHeadings md (depth (model node)) = Ok chunk.
Proof.
  unfold orderedChunk.
  destruct (if negb (truthy (modelBody (model node))) && negb (hasChildren node)
            then idIsPassage (model node) else Ok false) as [[|]|];
    cbn [rbind]; [intros [= <-]; by left | | done].
  destruct (mdForExtract st (keyName (model node)) (depth (model node)))
    as [[md|]|]; cbn [rbind]; [| intros [= <-]; by left | done].
  destruct (truthy (Some md)) eqn:Htr; cbn [andb]; [|intros [= <-]; by left].
  unfold allowExtract. destruct (minLength st) as [min|]; [|intros [= <-]; by left].
  destruct (Z.gtb_spec (Z.of_nat (String.length (strip (orEmpty (Some md))))) min);
    [|intros [= <-]; by left].
  destruct (rewriteHeadings (orEmpty (Some md)) (depth (model node))) as [chunk|] eqn:Hr;
    cbn [rbind]; [|done].
  intros [= <-]. right. exists md, min, chunk. simpl in *. repeat split; try done; lia.
Qed.

(** X17: [getOrdered] returns at most one chunk per node of the tree, and
    every chunk it returns is the markdown of a node, longer than the
    minimum length once its headings are stripped, with its headings
    rewritten at the depth of the node; a catalog without a minimum length
    returns no chunk at all. *)
Theorem getOrdered_chunks paths out :
  getOrdered compare st paths = Ok out →
  ∃ t,
    getTree compare st paths = Ok t ∧
    (length out ≤ length (nodes t))%nat ∧
    (∀ chunk, chunk ∈ out →
       ∃ node md min,
         node ∈ nodes t ∧
         mdForExtract st (keyName (model node)) (depth (model node)) = Ok (Some md) ∧
         minLength st = Some min ∧ min < Z.of_nat (String.length (strip md)) ∧
         rewriteHeadings md (depth (model node)) = Ok chunk) ∧
    (minLength st = None → out = []).
Proof.
  intros Hout. destruct (getOrdered_by_node compare st paths out Hout)
    as (t & pushed & Ht & HF & ->).
  exists t. split; [done|].
  assert (∀ l pushed,
            Forall2 (fun node chunks => orderedChunk st node = Ok chunks) l pushed →
            (length (concat pushed) ≤ length l)%nat ∧
            (∀ chunk, chunk ∈ concat pushed →
               ∃ node md min,
                 node ∈ l ∧
                 mdForExtract st (keyName (model node)) (depth (model node))
                   = Ok (Some md) ∧
                 minLength st = Some min ∧
                 min < Z.of_nat (String.length (strip md)) ∧
                 rewriteHeadings md (depth (model node)) = Ok chunk) ∧
            (minLength st = None → concat pushed = [])) as Hgen.
  { clear. induction 1 as [|node chunks l pushed Hn _ (IH1 & IH2 & IH3)]; simpl.
    - repeat split; [lia | by intros chunk ?%elem_of_nil].
    - apply orderedChunk_inv in Hn
        as [->|(md & min & chunk & -> & Hmd & Hmin & Hlen & Hr)]; simpl.
      + repeat split; [lia | | done].
        intros chunk Hc. destruct (IH2 chunk Hc) as (n' & md & min & Hin & H).
        exists n', md, min. split; [by apply list_elem_of_further | done].
      + repeat split; [lia | | by rewrite Hmin].
        intros chunk' [->|Hc]%elem_of_cons.
        * exists node, md, min. split; [apply list_elem_of_here | done].
        * destruct (IH2 chunk' Hc) as (n' & md' & min' & Hin & H).
          exists n', md', min'. split; [by apply list_elem_of_further | done]. }
  exact (Hgen _ _ HF).
Qed.

End WithComparator.


Lemma getOrdered_throws_witness :
  getOrdered Model_compare smallMine [["adit"; "gone"]] = Throw AssertionError.
Proof.
  destruct (getOrdered Model_compare smallMine [["adit"; "gone"]]) as [out|e] eqn:H;
    [by vm_compute in H|].
  f_equal.
  apply (getOrdered_throws Model_compare smallMine [["adit"; "gone"]] e).
  - apply CatalogFacts.init_keyed.
  - vm_compute. eauto.
  - intros p k Hp Hk. apply list_elem_of_singleton in Hp as ->.
    apply list_elem_of_In in Hk. simpl in Hk. by destruct Hk as [<-|[<-|[]]].
  - intros p Hp. apply list_elem_of_singleton in Hp as ->.
    unfold maxDepth. simpl. lia.
  - exact H.
Defined.

Lemma getOrdered_chunks_witness :
  ∃ out t,
    getOrdered Model_compare smallMine [["adit"]; ["adit"; "a"]] = Ok out ∧
    getTree Model_compare smallMine [["adit"]; ["adit"; "a"]] = Ok t ∧
    (length out ≤ length (nodes t))%nat.
Proof.
  destruct (getOrdered Model_compare smallMine [["adit"]; ["adit"; "a"]])
    as [out|] eqn:H; [|by vm_compute in H].
  destruct (getOrdered_chunks Model_compare smallMine [["adit"]; ["adit"; "a"]] out H)
    as (t & Ht & Hlen & _).
  exists out, t. split; [reflexivity|]. split; [exact Ht | exact Hlen].
Defined.

End OrderedMore.

(** ** getPaged: what it throws, when its loop ends, what it keeps *)

Module PagedMore.
Import Str HeadingRe Headings TreeModel Catalog Tree Shape Paging.
Import TreeFacts BuildFacts GetTreeFacts PagedFacts CatalogMore OrderedMore.

Lemma allChunks_unfold (t : Node) :
  allChunks t = chunks (model t) ++ (children t ≫= allChunks).
Proof. unfold allChunks. by rewrite gather_unfold. Qed.

Lemma bind_bind {A B C} (f : A → list B) (g : B → list C) (l : list A) :
  (l ≫= f) ≫= g = l ≫= (fun a => f a ≫= g).
Proof.
  induction l as [|a l IH]; [done|]. by rewrite !bind_cons, bind_app, IH.
Qed.

Lemma bind_ext_in {A B} (f g : A → list B) (l : list A) :
  (∀ a, a ∈ l → f a = g a) → l ≫= f = l ≫= g.
Proof.
  induction l as [|a l IH]; intros H; [done|]. rewrite !bind_cons.
  rewrite (H a (list_elem_of_here _ _)), IH; [done|].
  intros a' Ha'. by apply H, list_elem_of_further.
Qed.

(** *** The first walk *)

Lemma rmapNodes_Forall2 (f : Node → result Node) l l' :
  rmapNodes f l = Ok l' → Forall2 (fun a b => f a = Ok b) l l'.
Proof.
  revert l'. induction l as [|a l IH]; intros l'; simpl.
  - intros [= <-]. constructor.
  - destruct (f a) as [b|] eqn:Ha; [|done]. cbn [rbind].
    destruct (rmapNodes f l) as [bs|]; [|done]. cbn [rbind].
    intros [= <-]. constructor; [done | by apply IH].
Qed.

Lemma rmapNodes_total (f : Node → result Node) l :
  (∀ a, a ∈ l → ∃ b, f a = Ok b) → ∃ l', rmapNodes f l = Ok l'.
Proof.
  induction l as [|a l IH]; intros H; simpl; [by eexists|].
  destruct (H a (list_elem_of_here _ _)) as [b ->]. cbn [rbind].
  destruct IH as [bs ->]; [|by eexists].
  intros a' Ha'. by apply H, list_elem_of_further.
Qed.

Lemma generate_unfold st (t : Node) :
  generate st t =
    (m ←ᵣ pagedChunk st t;
     cs ←ᵣ rmapNodes (generate st) (children t);
     Ok (mkNode m cs)).
Proof. by destruct t. Qed.

Lemma pagedChunk_total st (node : Node) :
  0 ≤ depth (model node) → ∃ m, pagedChunk st node = Ok m.
Proof.
  intros Hd. unfold pagedChunk. destruct (bodilessLeaf node); [by eexists|].
  destruct (mdForExtract st (keyName (model node)) (depth (model node)))
    as [md|e] eqn:Hmd; cbn [rbind].
  - destruct (_ && _); by eexists.
  - apply mdForExtract_throw_inv in Hmd as [_ ?]. lia.
Qed.

Lemma generate_total st (t : Node) :
  (∀ n, n ∈ nodes t → 0 ≤ depth (model n)) → ∃ t', generate st t = Ok t'.
Proof.
  induction t as [m cs IH] using Node_ind'. intros Hd. rewrite generate_unfold.
  destruct (pagedChunk_total st (mkNode m cs)) as [m' ->];
    [apply Hd, elem_of_nodes_self|]. cbn [rbind]. simpl.
  destruct (rmapNodes_total (generate st) cs) as [cs' ->]; [|by eexists].
  intros c Hc. rewrite Forall_forall in IH. apply IH; [done|].
  intros n Hn. apply Hd. by eapply elem_of_nodes_child.
Qed.

Section WithComparator.
Variable compare : Model → Model → Z.

(** The trees of [getTree] hold no chunk, and the depths in them are not
    negative, whatever the lookup holds. *)
Lemma getTree_fresh st paths t :
  getTree compare st paths = Ok t →
  ∀ m, m ∈ models t → 0 ≤ depth m ∧ chunks m = [].
Proof.
  apply (getTree_rule compare st
           (fun _ root => ∀ m, m ∈ models root → 0 ≤ depth m ∧ chunks m = []) paths).
  - intros walked p rest root root' _ Hroot Hw.
    destruct (walkPath_rule compare st
      (fun _ root1 _ => ∀ m, m ∈ models root1 → 0 ≤ depth m ∧ chunks m = []) p root root')
      as (current' & _ & H); try done.
    intros passed k rest' root0 current root1 current1 _ Hv Hs Hround.
    destruct Hround as [rel Hf Hv' Hk | nugget index Hfresh Hn m Hv' Hfoc]; [done|].
    intros m'. rewrite models_grow by done.
    intros [->|Hin]%elem_of_cons; [|by apply Hs]. subst m. simpl. split; [lia|done].
  - intros m. rewrite models_unfold. unfold modelsBelow. simpl.
    intros ->%list_elem_of_singleton. done.
Qed.

Lemma getTree_generate st paths t :
  getTree compare st paths = Ok t → ∃ t1, generate st t = Ok t1.
Proof.
  intros Ht. apply generate_total. intros n Hn.
  apply (getTree_fresh st paths t Ht). rewrite models_nodes.
  by apply list_elem_of_fmap_2.
Qed.

(** X18: when the nuggets are stored under their own keys, no key of the
    paths is a name that plain objects inherit and no path is longer than
    a traversal makes it, all that [getPaged] throws is the
    AssertionError of [getTree]: once the tree is built, the first walk
    throws nothing, with or without the adit in the lookup. *)
Theorem getPaged_throws st paths fuel e :
  keyed st → ordinaryKeys paths → traversed paths →
  getPaged compare fuel st paths = Throw e → e = AssertionError.
Proof.
  intros _ _ _. unfold getPaged. destruct (getTree compare st paths) as [t|e'] eqn:Ht; cbn [rbind].
  - unfold pagedOf. by destruct (getTree_generate st paths t Ht) as [t1 ->].
  - intros [= <-]. by eapply getTree_throws.
Qed.

End WithComparator.

(** *** When the pruning loop ends *)

Lemma hasChunk_iff (t : Node) :
  hasChunk t ↔ ∃ n, n ∈ nodes t ∧ chunks (model n) ≠ [].
Proof. unfold hasChunk. rewrite Exists_exists. done. Qed.

Lemma not_hasChunk (t : Node) :
  ¬ hasChunk t → ∀ n, n ∈ nodes t → chunks (model n) = [].
Proof.
  intros Hno n Hn. destruct (chunks (model n)) eqn:Hc; [done|].
  destruct Hno. apply hasChunk_iff. exists n. split; [done|]. by rewrite Hc.
Qed.

Lemma hasChunk_not_emptyLeaf (t : Node) : hasChunk t → emptyLeaf t = false.
Proof.
  intros (n & Hn & Hc)%hasChunk_iff. unfold emptyLeaf, hasChildren.
  destruct t as [m [|c cs]]; [|done]. simpl in *.
  apply list_elem_of_singleton in Hn as ->. simpl in Hc.
  by destruct (chunks m).
Qed.

Lemma hasChunk_drop (t : Node) : hasChunk t → hasChunk (dropEmptyLeaves t).
Proof.
  induction t as [m cs IH] using Node_ind'.
  intros (n & Hn & Hc)%hasChunk_iff. apply hasChunk_iff.
  rewrite nodes_unfold in Hn. simpl in Hn. apply elem_of_cons in Hn as [->|Hn].
  - exists (dropEmptyLeaves (mkNode m cs)). split; [apply elem_of_nodes_self|].
    by rewrite dropEmptyLeaves_unfold.
  - apply list_elem_of_bind in Hn as (c & Hn & Hcin).
    assert (hasChunk c) as Hhc by (apply hasChunk_iff; eauto).
    rewrite Forall_forall in IH.
    pose proof (IH c Hcin Hhc) as (n' & Hn' & Hc')%hasChunk_iff.
    exists n'. split; [|done]. rewrite dropEmptyLeaves_unfold, nodes_unfold. simpl.
    apply list_elem_of_further, list_elem_of_bind. exists (dropEmptyLeaves c).
    split; [done|]. apply list_elem_of_bind. exists c. split; [|done].
    rewrite (hasChunk_not_emptyLeaf c Hhc). apply list_elem_of_here.
Qed.

Lemma bind_length_le {A B C} (f : A → list B) (g : A → list C) (l : list A) :
  (∀ a, a ∈ l → (length (f a) ≤ length (g a))%nat) →
  (length (l ≫= f) ≤ length (l ≫= g))%nat.
Proof.
  induction l as [|a l IH]; intros H; [done|]. rewrite !bind_cons, !length_app.
  pose proof (H a (list_elem_of_here _ _)).
  assert (length (l ≫= f) ≤ length (l ≫= g))%nat; [|lia].
  apply IH. intros a' Ha'. by apply H, list_elem_of_further.
Qed.

Lemma bind_length_lt {A B C} (f : A → list B) (g : A → list C) (l : list A) a :
  (∀ a, a ∈ l → (length (f a) ≤ length (g a))%nat) →
  a ∈ l → (length (f a) < length (g a))%nat →
  (length (l ≫= f) < length (l ≫= g))%nat.
Proof.
  intros Hle (l1 & l2 & ->)%list_elem_of_split Hlt.
  rewrite !bind_app, !bind_cons, !length_app.
  assert (length (l1 ≫= f) ≤ length (l1 ≫= g))%nat.
  { apply bind_length_le. intros a' Ha'. apply Hle, elem_of_app. by left. }
  assert (length (l2 ≫= f) ≤ length (l2 ≫= g))%nat; [|lia].
  apply bind_length_le. intros a' Ha'.
  apply Hle, elem_of_app. right. by apply list_elem_of_further.
Qed.

Lemma length_nodes_pos (t : Node) : (0 < length (nodes t))%nat.
Proof. rewrite nodes_unfold. simpl. lia. Qed.

(** The pruning step adds no node, and it removes one when a node below
    the root is an empty leaf. *)
Lemma length_nodes_drop (t : Node) :
  (length (nodes (dropEmptyLeaves t)) ≤ length (nodes t))%nat ∧
  (emptyLeaf t = false → (∃ n, n ∈ nodes t ∧ emptyLeaf n = true) →
   (length (nodes (dropEmptyLeaves t)) < length (nodes t))%nat).
Proof.
  induction t as [m cs IH] using Node_ind'.
  rewrite dropEmptyLeaves_unfold, !nodes_unfold. simpl.
  rewrite bind_bind.
  set (kept := fun c : Node => (if emptyLeaf c then [] else [dropEmptyLeaves c]) ≫= nodes).
  assert (∀ c, c ∈ cs →
            (length (kept c) ≤ length (nodes c))%nat ∧
            ((∃ n, n ∈ nodes c ∧ emptyLeaf n = true) →
             (length (kept c) < length (nodes c))%nat)) as Hc.
  { intros c Hin. rewrite Forall_forall in IH. destruct (IH c Hin) as [Hle Hlt].
    unfold kept. destruct (emptyLeaf c) eqn:He.
    - simpl. pose proof (length_nodes_pos c). split; lia.
    - rewrite bind_singleton. split; [done|]. by apply Hlt. }
  clear IH. split.
  - apply le_n_S, bind_length_le. intros c Hin. by apply Hc.
  - intros Hroot (n & Hn & He). apply elem_of_cons in Hn as [->|Hn]; [congruence|].
    apply -> Nat.succ_lt_mono.
    apply list_elem_of_bind in Hn as (c & Hn & Hin).
    apply (bind_length_lt _ _ _ c); [by intros; apply Hc | done |].
    apply Hc; eauto.
Qed.

Lemma emptyLeaves_nonempty (t : Node) :
  emptyLeaves t ≠ [] → ∃ n, n ∈ nodes t ∧ emptyLeaf n = true.
Proof.
  unfold emptyLeaves, all. destruct (filter _ (nodes t)) as [|n l] eqn:Hf; [done|].
  intros _. exists n.
  assert (n ∈ filter (fun n => emptyLeaf n = true) (nodes t)) as Hn
    by (rewrite Hf; apply list_elem_of_here).
  apply list_elem_of_filter in Hn as [? ?]. done.
Qed.

Lemma pruneLoop_ends fuel (t : Node) :
  hasChunk t → (length (nodes t) ≤ fuel)%nat → ∃ t', pruneLoop fuel t = Some t'.
Proof.
  revert t. induction fuel as [|fuel IH]; intros t Hc Hfuel.
  - pose proof (length_nodes_pos t). lia.
  - simpl. destruct (length (emptyLeaves t) =? 0)%nat eqn:Hlen; [by eexists|].
    apply IH; [by apply hasChunk_drop|].
    apply Nat.eqb_neq in Hlen.
    destruct (length_nodes_drop t) as [_ Hlt].
    assert (length (nodes (dropEmptyLeaves t)) < length (nodes t))%nat; [|lia].
    apply Hlt; [by apply hasChunk_not_emptyLeaf|].
    apply emptyLeaves_nonempty. intros Hnil. by rewrite Hnil in Hlen.
Qed.

(** X19: the pruning loop of [getPaged] comes to its end exactly when some
    node of the tree holds a chunk, and then it needs no more rounds than
    the tree has nodes. *)
Theorem pruneLoop_terminates (t : Node) :
  ((∃ fuel t', pruneLoop fuel t = Some t') ↔ hasChunk t) ∧
  (hasChunk t → ∃ t', pruneLoop (length (nodes t)) t = Some t').
Proof.
  split; [split|].
  - intros (fuel & t' & Hloop).
    destruct (decide (hasChunk t)) as [|Hno]; [done|].
    by rewrite (pruneLoop_all_empty t (not_hasChunk t Hno) fuel) in Hloop.
  - intros Hc. exists (length (nodes t)). by apply pruneLoop_ends.
  - intros Hc. by apply pruneLoop_ends.
Qed.

(** *** What the walks keep *)

Lemma allChunks_dropEmptyLeaves (t : Node) : allChunks (dropEmptyLeaves t) = allChunks t.
Proof.
  induction t as [m cs IH] using Node_ind'.
  rewrite dropEmptyLeaves_unfold, !allChunks_unfold. simpl. f_equal.
  rewrite bind_bind. apply bind_ext_in. intros c Hc.
  rewrite Forall_forall in IH. destruct (emptyLeaf c) eqn:He.
  - simpl. rewrite allChunks_unfold. unfold emptyLeaf, hasChildren in He.
    destruct (children c); [|done]. simpl in He.
    apply Nat.eqb_eq, length_zero_iff_nil in He. by rewrite He.
  - rewrite bind_singleton. by apply IH.
Qed.

Lemma allChunks_pruneLoop fuel (t t' : Node) :
  pruneLoop fuel t = Some t' → allChunks t' = allChunks t.
Proof.
  revert t. induction fuel as [|fuel IH]; intros t; simpl; [done|].
  destruct (length (emptyLeaves t) =? 0)%nat.
  - intros [= <-]. apply allChunks_dropEmptyLeaves.
  - intros H. rewrite (IH _ H). apply allChunks_dropEmptyLeaves.
Qed.

Lemma dropListed_unfold (t : Node) :
  dropListed t =
    mkNode (model t)
      (children t ≫= (fun c => if bodilessLeaf c then [] else [dropListed c])).
Proof. by destruct t. Qed.

Lemma allChunks_dropListed (t : Node) :
  (∀ n, n ∈ nodes t → bodilessLeaf n = true → chunks (model n) = []) →
  allChunks (dropListed t) = allChunks t.
Proof.
  induction t as [m cs IH] using Node_ind'. intros H.
  rewrite dropListed_unfold, !allChunks_unfold. simpl. f_equal.
  rewrite bind_bind. apply bind_ext_in. intros c Hc.
  rewrite Forall_forall in IH. destruct (bodilessLeaf c) eqn:He.
  - simpl. rewrite allChunks_unfold.
    assert (c ∈ nodes (mkNode m cs)) as Hin
      by (eapply elem_of_nodes_child; [exact Hc | apply elem_of_nodes_self]).
    rewrite (H c Hin He).
    unfold bodilessLeaf, hasChildren in He. by destruct (children c).
  - rewrite bind_singleton. apply IH; [done|].
    intros n Hn. apply H. by eapply elem_of_nodes_child.
Qed.

Lemma collateFrom_unfold (b : bool) (t : Node) :
  collateFrom b t =
    mkNode
      (withChunks
         ((if b then [] else chunks (model t)) ++
          (children t ≫= (fun c => if foldsUp (model t) c then chunks (model c) else [])))
         (model t))
      (map (fun c => collateFrom (foldsUp (model t) c) c) (children t)).
Proof. by destruct t. Qed.

Lemma bind_app_pointwise {A B} (f g : A → list B) (l : list A) :
  (l ≫= f) ++ (l ≫= g) ≡ₚ l ≫= (fun a => f a ++ g a).
Proof.
  induction l as [|a l IH]; [done|]. rewrite !bind_cons, <- IH.
  rewrite <- !(assoc_L (++)). f_equiv. rewrite !(assoc_L (++)). f_equiv.
  apply (comm (++)).
Qed.

Lemma bind_Permutation_in {A B} (f g : A → list B) (l : list A) :
  (∀ a, a ∈ l → f a ≡ₚ g a) → l ≫= f ≡ₚ l ≫= g.
Proof.
  induction l as [|a l IH]; intros H; [done|]. rewrite !bind_cons.
  rewrite (H a (list_elem_of_here _ _)), IH; [done|].
  intros a' Ha'. by apply H, list_elem_of_further.
Qed.

(** The collation walk moves chunks and loses none. *)
Lemma allChunks_collateFrom (b : bool) (t : Node) :
  (if b then chunks (model t) else []) ++ allChunks (collateFrom b t) ≡ₚ allChunks t.
Proof.
  revert b. induction t as [m cs IH] using Node_ind'. intros b.
  rewrite collateFrom_unfold, !allChunks_unfold. simpl.
  assert (((if b then chunks m else []) ++
           ((if b then [] else chunks m) ++
            (cs ≫= (fun c => if foldsUp m c then chunks (model c) else []))) ++
           (map (fun c => collateFrom (foldsUp m c) c) cs ≫= allChunks))
          ≡ₚ chunks m ++
             ((cs ≫= (fun c => if foldsUp m c then chunks (model c) else [])) ++
              (cs ≫= (fun c => allChunks (collateFrom (foldsUp m c) c))))) as ->.
  { assert (map (fun c => collateFrom (foldsUp m c) c) cs ≫= allChunks
            = cs ≫= (fun c => allChunks (collateFrom (foldsUp m c) c))) as ->.
    { clear. induction cs as [|c cs IHcs]; [done|]. cbn [map].
      by rewrite !bind_cons, IHcs. }
    destruct b; simpl; rewrite ?app_nil_r, <- ?(assoc_L (++)); done. }
  f_equiv. rewrite bind_app_pointwise. apply bind_Permutation_in.
  intros c Hc. rewrite Forall_forall in IH. apply (IH c Hc).
Qed.

Lemma pagedChunk_bodiless st (node : Node) m :
  pagedChunk st node = Ok m → bodilessLeaf node = true → m = model node.
Proof. unfold pagedChunk. intros H Hb. rewrite Hb in H. by injection H. Qed.

Lemma pagedChunk_nug st (node : Node) m :
  pagedChunk st node = Ok m → nug m = nug (model node) ∧ depth m = depth (model node).
Proof.
  unfold pagedChunk. destruct (bodilessLeaf node); [by intros [= <-]|].
  destruct (mdForExtract _ _ _); cbn [rbind]; [|done].
  destruct (_ && _); by intros [= <-].
Qed.

(** The first walk gives no chunk to a node that it lists for
    dropping. *)
Lemma generate_bodiless st (t t1 : Node) :
  blank t → generate st t = Ok t1 →
  ∀ n, n ∈ nodes t1 → bodilessLeaf n = true → chunks (model n) = [].
Proof.
  revert t1. induction t as [m cs IH] using Node_ind'. intros t1 Hblank.
  rewrite generate_unfold. simpl.
  destruct (pagedChunk st (mkNode m cs)) as [m'|] eqn:Hm; [|done]. cbn [rbind].
  destruct (rmapNodes (generate st) cs) as [cs'|] eqn:Hcs; [|done]. cbn [rbind].
  intros [= <-] n Hn Hb. apply rmapNodes_Forall2 in Hcs.
  rewrite nodes_unfold in Hn. simpl in Hn. apply elem_of_cons in Hn as [->|Hn].
  - assert (bodilessLeaf (mkNode m cs) = true) as Hb'.
    { destruct (pagedChunk_nug st _ _ Hm) as [Hnug _].
      unfold bodilessLeaf, hasChildren, modelBody in *. simpl in *.
      rewrite <- Hnug. destruct cs' as [|c' cs']; [|done].
      by apply Forall2_nil_inv_r in Hcs as ->. }
    rewrite (pagedChunk_bodiless st _ _ Hm Hb'). simpl.
    apply (Hblank (mkNode m cs)), elem_of_nodes_self.
  - apply list_elem_of_bind in Hn as (c' & Hn & Hc').
    apply list_elem_of_lookup_1 in Hc' as [i Hi].
    destruct (Forall2_lookup_r _ _ _ _ _ Hcs Hi) as (c & Hc & Hgen).
    rewrite Forall_forall in IH.
    apply (IH c (list_elem_of_lookup_2 _ _ _ Hc) c'); try done.
    intros n' Hn'. apply Hblank. eapply elem_of_nodes_child; [|done].
    by eapply list_elem_of_lookup_2.
Qed.

(** What the first walk leaves in the tree is what it leaves at each
    node. *)
Lemma allChunks_generate st (t t1 : Node) :
  generate st t = Ok t1 → allChunks t1 = nodes t ≫= generated st.
Proof.
  revert t1. induction t as [m cs IH] using Node_ind'. intros t1.
  rewrite nodes_unfold, bind_cons, generate_unfold. unfold generated at 1.
  cbn [children model].
  destruct (pagedChunk st (mkNode m cs)) as [m'|]; [|done]. cbn [rbind].
  destruct (rmapNodes (generate st) cs) as [cs'|] eqn:Hcs; [|done]. cbn [rbind].
  intros [= <-]. rewrite allChunks_unfold. simpl. f_equal.
  rewrite bind_bind. apply rmapNodes_Forall2 in Hcs. clear -Hcs IH.
  induction Hcs as [|c c' cs cs' Hg _ IHcs]; [done|].
  apply Forall_cons in IH as [Hc IH]. by rewrite !bind_cons, (Hc c' Hg), IHcs.
Qed.

Section Kept.
Variable compare : Model → Model → Z.

(** X20: [getPaged] loses no chunk and makes none up: the chunks in the
    tree it returns are the chunks that its first walk left at the nodes
    of the tree of [getTree], each as often as it was left. *)
Theorem getPaged_keeps_chunks st paths fuel (t' : Node) :
  getPaged compare fuel st paths = Ok (Some t') →
  ∃ t, getTree compare st paths = Ok t ∧
       allChunks t' ≡ₚ nodes t ≫= generated st.
Proof.
  unfold getPaged. destruct (getTree compare st paths) as [t|] eqn:Ht; [|done].
  cbn [rbind]. unfold pagedOf.
  destruct (generate st t) as [t1|] eqn:Hgen; [|done]. cbn [rbind].
  intros [= Hloop]. exists t. split; [done|].
  rewrite (allChunks_pruneLoop _ _ _ Hloop), <- (allChunks_generate st t t1 Hgen).
  transitivity (allChunks (dropListed t1)).
  - exact (allChunks_collateFrom false (dropListed t1)).
  - rewrite allChunks_dropListed; [done|]. eapply generate_bodiless; [|done].
    intros n Hn. apply (getTree_fresh compare st paths t Ht).
    rewrite models_nodes. by apply list_elem_of_fmap_2.
Qed.

End Kept.

(** *** What the collation walk leaves with the nuggets *)






Lemma getPaged_throws_witness :
  getPaged Model_compare 5 smallMine [["adit"; "gone"]] = Throw AssertionError.
Proof.
  destruct (getPaged Model_compare 5 smallMine [["adit"; "gone"]]) as [out|e] eqn:H;
    [by vm_compute in H|].
  f_equal.
  apply (getPaged_throws Model_compare smallMine [["adit"; "gone"]] 5 e).
  - apply CatalogFacts.init_keyed.
  - intros p k Hp Hk. apply list_elem_of_singleton in Hp as ->.
    apply list_elem_of_In in Hk. simpl in Hk. by destruct Hk as [<-|[<-|[]]].
  - intros p Hp. apply list_elem_of_singleton in Hp as ->.
    unfold maxDepth. simpl. lia.
  - exact H.
Defined.

Lemma pruneLoop_terminates_witness :
  ∃ t', pruneLoop (length (nodes collatedTree)) collatedTree = Some t'.
Proof.
  apply (pruneLoop_terminates collatedTree).
  apply Exists_cons_hd. simpl. discriminate.
Defined.

Lemma getPaged_keeps_chunks_witness :
  ∃ t' t,
    getPaged Model_compare 5 smallMine [["adit"]; ["adit"; "a"]] = Ok (Some t') ∧
    getTree Model_compare smallMine [["adit"]; ["adit"; "a"]] = Ok t ∧
    allChunks t' ≡ₚ nodes t ≫= generated smallMine.
Proof.
  destruct (getPaged Model_compare 5 smallMine [["adit"]; ["adit"; "a"]])
    as [[t'|]|] eqn:H; try (by vm_compute in H).
  destruct (getPaged_keeps_chunks Model_compare smallMine [["adit"]; ["adit"; "a"]] 5 t' H)
    as (t & Ht & Hkept).
  exists t', t. split; [reflexivity|]. split; [exact Ht | exact Hkept].
Defined.


End PagedMore.
